(** * Kaleidoscope front end: lexer, precedence-climbing parser, lowering

    A shallow embedding of [parser.cpp].  The file holds two revisions of
    the program: the parser-only revision (lines 1-433) and the revision
    that adds the lowering methods [codegen] (lines 434-990).  The lexer
    and the expression parser are the same text in both; [parse_prototype]
    differs and is embedded once per revision.

    Conventions of the embedding
    - [char] is the signed 8-bit type of the x86-64 targets the Makefile
      builds for; [int] values are [Z].  A value stored into a [char]
      goes through [to_char].
    - the C globals ([last_char], [identifier_string], [number_val],
      [curr_token]) and the two streams (standard input, standard error)
      are fields of explicit state records.
    - [double] values are carried as the exact rational that [strtod]
      reads; its rounding to binary64 is not modelled.
    - a null pointer is [None]. *)

From Stdlib Require Import ZArith QArith Ascii String Lia.
From stdpp Require Import base tactics option list strings pretty gmap stringmap.

Local Open Scope Z_scope.

(** ** Characters *)

Definition EOF : Z := -1.

(** The code of a character literal. *)
Definition chr (a : ascii) : Z := Z.of_N (N_of_ascii a).

(** Conversion of an [int] to the signed 8-bit [char]. *)
Definition to_char (z : Z) : Z := (z + 128) mod 256 - 128.

(** The character appended to a [std::string] by [s += c]. *)
Definition ascii_of_char (c : Z) : ascii := ascii_of_N (Z.to_N (c mod 256)).

Definition push_back (s : string) (c : Z) : string :=
  s +:+ String (ascii_of_char c) EmptyString.

(** <cctype> in the "C" locale. *)
Definition isspace (c : Z) : bool := (c =? 32) || ((9 <=? c) && (c <=? 13)).
Definition isdigit (c : Z) : bool := (48 <=? c) && (c <=? 57).
Definition isalpha (c : Z) : bool :=
  ((65 <=? c) && (c <=? 90)) || ((97 <=? c) && (c <=? 122)).
Definition isalnum (c : Z) : bool := isalpha c || isdigit c.

(** ** Tokens *)

Definition TOK_EOF : Z := -1.
Definition TOK_DEF : Z := -2.
Definition TOK_EXTERN : Z := -3.
Definition TOK_IDENTIFIER : Z := -4.
Definition TOK_NUMBER : Z := -5.

(** ** [strtod] on the text the lexer hands it

    The C library's conversion, for the strings it is called on here:
    [num_string] starts with a digit and holds digits and dots only, so
    the conversion reads the digits, then at most one dot followed by
    digits, and stops at a second dot. *)

Definition digit_val (a : ascii) : Z := Z.of_N (N_of_ascii a) - 48.

Definition is_digit_ascii (a : ascii) : bool := isdigit (Z.of_N (N_of_ascii a)).

Fixpoint read_digits (s : string) (acc : Z) (den : positive)
  : Z * positive * string :=
  match s with
  | String a r =>
      if is_digit_ascii a
      then read_digits r (10 * acc + digit_val a) (10 * den)%positive
      else (acc, den, s)
  | EmptyString => (acc, den, s)
  end.

Definition strtod (s : string) : Q :=
  let '(ip, _, r) := read_digits s 0 1%positive in
  match r with
  | String "." r' =>
      let '(m, den, _) := read_digits r' ip 1%positive in Qred (m # den)
  | _ => inject_Z ip
  end.

(** ** Lexer state *)

Record Lexer := mkLexer {
  last_char : Z;               (* static char last_char *)
  stdin : string;              (* what getchar() has not read yet *)
  identifier_string : string;
  number_val : Q
}.

Definition lexer_init (input : string) : Lexer :=
  {| last_char := chr " "; stdin := input;
     identifier_string := ""; number_val := inject_Z 69 |}.

(** [getchar()], its [int] result stored into a [char]. *)
Definition getchar (inp : string) : Z * string :=
  match inp with
  | EmptyString => (EOF, EmptyString)
  | String a r => (to_char (chr a), r)
  end.

(** [while (cond(last_char)) { acc += last_char; last_char = getchar(); }]
    Every condition the lexer loops on is false at [EOF] (see
    [loop_conds_stop_at_EOF]), so the loop leaves once the input is
    exhausted. *)
Fixpoint read_while (cond : Z → bool) (acc : string) (c : Z) (inp : string)
  : string * Z * string :=
  if cond c then
    match inp with
    | EmptyString => (push_back acc c, EOF, EmptyString)
    | String a r => read_while cond (push_back acc c) (to_char (chr a)) r
    end
  else (acc, c, inp).

(** [while (isspace(last_char)) last_char = getchar();] *)
Definition skip_space (c : Z) (inp : string) : Z * string :=
  let '(_, c', inp') := read_while isspace "" c inp in (c', inp').

Definition in_number (c : Z) : bool := isdigit c || (c =? chr ".").

Definition in_comment (c : Z) : bool :=
  negb (c =? EOF) && negb (c =? chr "010") && negb (c =? chr "013").

(** [while (last_char != EOF && last_char != '\n' && last_char != '\r')
       last_char = getchar();] *)
Definition skip_line (c : Z) (inp : string) : Z * string :=
  let '(_, c', inp') := read_while in_comment "" c inp in (c', inp').

(** The static map [string_to_keyword]. *)
Definition string_to_keyword (s : string) : Z :=
  if String.eqb s "def" then TOK_DEF
  else if String.eqb s "extern" then TOK_EXTERN
  else TOK_IDENTIFIER.

(** [get_token]; [fuel] bounds the tail calls made after a comment line. *)
Fixpoint get_token_rec (fuel : nat) (lx : Lexer) : option (Z * Lexer) :=
  let '(c, inp) := skip_space (last_char lx) (stdin lx) in
  if isalpha c then
    let '(c1, inp1) := getchar inp in
    let '(id, c2, inp2) :=
      read_while isalnum (String (ascii_of_char c) EmptyString) c1 inp1 in
    Some (string_to_keyword id,
          {| last_char := c2; stdin := inp2;
             identifier_string := id; number_val := number_val lx |})
  else if isdigit c then
    let '(c1, inp1) := getchar inp in
    let '(num_string, c2, inp2) :=
      read_while in_number (String (ascii_of_char c) EmptyString) c1 inp1 in
    Some (TOK_NUMBER,
          {| last_char := c2; stdin := inp2;
             identifier_string := identifier_string lx;
             number_val := strtod num_string |})
  else if c =? chr "#" then
    let '(c1, inp1) := getchar inp in
    let '(c2, inp2) := skip_line c1 inp1 in
    if negb (c2 =? EOF) then
      let '(c3, inp3) := getchar inp2 in
      match fuel with
      | O => None
      | S fuel' =>
          get_token_rec fuel'
            {| last_char := c3; stdin := inp3;
               identifier_string := identifier_string lx;
               number_val := number_val lx |}
      end
    else
      (* falls out of the comment block with last_char == EOF *)
      Some (TOK_EOF,
            {| last_char := c2; stdin := inp2;
               identifier_string := identifier_string lx;
               number_val := number_val lx |})
  else if c =? EOF then
    Some (TOK_EOF,
          {| last_char := c; stdin := inp;
             identifier_string := identifier_string lx;
             number_val := number_val lx |})
  else
    let '(c1, inp1) := getchar inp in
    Some (c,
          {| last_char := c1; stdin := inp1;
             identifier_string := identifier_string lx;
             number_val := number_val lx |}).

(** One tail call needs at least one character read, so the length of
    the unread input is fuel enough ([get_token_rec_total]). *)
Definition get_token (lx : Lexer) : Z * Lexer :=
  match get_token_rec (String.length (stdin lx)) lx with
  | Some r => r
  | None => (TOK_EOF, lx)
  end.

(** The token as the specification's data model names it, read from the
    returned code and the globals. *)
Inductive Token :=
| T_eof
| T_def
| T_extern
| T_identifier (name : string)
| T_number (value : Q)
| T_char (c : ascii).

Definition token_view (r : Z * Lexer) : Token :=
  let '(t, lx) := r in
  if t =? TOK_EOF then T_eof
  else if t =? TOK_DEF then T_def
  else if t =? TOK_EXTERN then T_extern
  else if t =? TOK_IDENTIFIER then T_identifier (identifier_string lx)
  else if t =? TOK_NUMBER then T_number (number_val lx)
  else T_char (ascii_of_char t).

(** [n] successive calls of [get_token]. *)
Fixpoint tokens (n : nat) (lx : Lexer) : list Token :=
  match n with
  | O => []
  | S n' => let r := get_token lx in token_view r :: tokens n' (snd r)
  end.

(** ** AST *)

#[warnings="-register-all"]
Inductive AstExpr :=
| NumLiteralExpr (value : Q)
| VarExpr (name : string)
| BinaryExpr (op : Z) (lhs rhs : AstExpr)
| CallExpr (callee_name : string) (args : list AstExpr).

Record AstPrototype := mkProto {
  proto_name : string;
  arg_names : list string
}.

Record AstFuncDef := mkFuncDef {
  prototype : AstPrototype;
  body : AstExpr
}.

(** ** Parser state and outcomes *)

Record Parser := mkParser {
  lexer : Lexer;
  curr_token : Z;
  stderr : list string         (* lines written by log_error *)
}.

Definition parser_init (input : string) : Parser :=
  {| lexer := lexer_init input; curr_token := -69; stderr := [] |}.

Definition get_next_token (p : Parser) : Parser :=
  let '(t, lx) := get_token (lexer p) in
  {| lexer := lx; curr_token := t; stderr := stderr p |}.

Definition log_error (msg : string) (p : Parser) : Parser :=
  {| lexer := lexer p; curr_token := curr_token p;
     stderr := stderr p ++ ["Error: " +:+ msg] |}.

Definition log_error_expr (msg : string) (p : Parser)
  : option AstExpr * Parser := (None, log_error msg p).

Definition log_error_proto (msg : string) (p : Parser)
  : option AstPrototype * Parser := (None, log_error msg p).

(** What a call of a parse function comes to: it returns, an [assert]
    stops the program, or the fuel given to the model ran out. *)
Inductive Outcome (A : Type) :=
| Returns (a : A)
| AssertFailed
| OutOfFuel.
Arguments Returns {A} a.
Arguments AssertFailed {A}.
Arguments OutOfFuel {A}.

Definition bind {A B} (m : Outcome A) (k : A → Outcome B) : Outcome B :=
  match m with
  | Returns a => k a
  | AssertFailed => AssertFailed
  | OutOfFuel => OutOfFuel
  end.

Notation "'let*' pat := m 'in' k" :=
  (bind m (fun x => match x with pat => k end))
  (at level 10, pat pattern, m at level 200, k at level 200).

(** ** Expression parser *)

Definition parse_number (p : Parser) : Outcome (option AstExpr * Parser) :=
  if curr_token p =? TOK_NUMBER
  then Returns (Some (NumLiteralExpr (number_val (lexer p))), get_next_token p)
  else AssertFailed.

Definition get_binary_precedence (op : Z) : Z :=
  if op =? chr "<" then 10
  else if (op =? chr "+") || (op =? chr "-") then 20
  else if op =? chr "*" then 40
  else -1.

(** The functions of the recursive descent, one level of [fuel] per call
    and per loop iteration.  [parse_identifier_args] is the [while (true)]
    loop of [parse_identifier], entered with the arguments collected so
    far. *)
Fixpoint parse_expr (fuel : nat) (p : Parser)
  : Outcome (option AstExpr * Parser) :=
  match fuel with
  | O => OutOfFuel
  | S fuel =>
      let* (lhs, p1) := parse_primary fuel p in
      match lhs with
      | None => Returns (None, p1)
      | Some lhs => parse_bin_op_rhs fuel 0 lhs p1
      end
  end

with parse_primary (fuel : nat) (p : Parser)
  : Outcome (option AstExpr * Parser) :=
  match fuel with
  | O => OutOfFuel
  | S fuel =>
      if curr_token p =? TOK_IDENTIFIER then parse_identifier fuel p
      else if curr_token p =? TOK_NUMBER then parse_number p
      else if curr_token p =? chr "(" then parse_paren_expr fuel p
      else Returns (log_error_expr
                      ("Unexpected token with id " +:+ pretty (curr_token p)) p)
  end

with parse_paren_expr (fuel : nat) (p : Parser)
  : Outcome (option AstExpr * Parser) :=
  match fuel with
  | O => OutOfFuel
  | S fuel =>
      if negb (curr_token p =? chr "(") then AssertFailed else
      let p0 := get_next_token p in
      let* (expr, p1) := parse_expr fuel p0 in
      match expr with
      | None => Returns (None, p1)
      | Some e =>
          if negb (curr_token p1 =? chr ")")
          then Returns (log_error_expr "Expected ')'" p1)
          else Returns (Some e, get_next_token p1)
      end
  end

with parse_identifier (fuel : nat) (p : Parser)
  : Outcome (option AstExpr * Parser) :=
  match fuel with
  | O => OutOfFuel
  | S fuel =>
      if negb (curr_token p =? TOK_IDENTIFIER) then AssertFailed else
      let id_name := identifier_string (lexer p) in
      let p1 := get_next_token p in
      if negb (curr_token p1 =? chr "(")
      then Returns (Some (VarExpr id_name), p1)
      else
        let p2 := get_next_token p1 in          (* discard '(' *)
        let* (args, p3) :=
           (if negb (curr_token p2 =? chr ")")
            then parse_identifier_args fuel [] p2
            else Returns (Some [], p2)) in
        match args with
        | None => Returns (None, p3)
        | Some args =>
            let p4 := get_next_token p3 in      (* discard ')' *)
            Returns (Some (CallExpr id_name args), p4)
        end
  end

with parse_identifier_args (fuel : nat) (args : list AstExpr) (p : Parser)
  : Outcome (option (list AstExpr) * Parser) :=
  match fuel with
  | O => OutOfFuel
  | S fuel =>
      let* (arg, p1) := parse_expr fuel p in
      match arg with
      | None => Returns (None, p1)
      | Some arg =>
          let args := args ++ [arg] in
          if curr_token p1 =? chr ")" then Returns (Some args, p1)
          else if negb (curr_token p1 =? chr ",")
          then Returns (None, log_error "Expected ',' or ')'" p1)
          else parse_identifier_args fuel args p1
      end
  end

with parse_bin_op_rhs (fuel : nat) (lhs_prec : Z) (lhs : AstExpr) (p : Parser)
  : Outcome (option AstExpr * Parser) :=
  match fuel with
  | O => OutOfFuel
  | S fuel =>
      let curr_prec := get_binary_precedence (to_char (curr_token p)) in
      if curr_prec <? lhs_prec then Returns (Some lhs, p) else
      let op := to_char (curr_token p) in
      let p1 := get_next_token p in             (* eat operator *)
      let* (rhs, p2) := parse_primary fuel p1 in
      match rhs with
      | None => Returns (None, p2)
      | Some rhs =>
          let next_prec := get_binary_precedence (to_char (curr_token p2)) in
          let* (rhs, p3) :=
             (if curr_prec <? next_prec
              then parse_bin_op_rhs fuel (curr_prec + 1) rhs p2
              else Returns (Some rhs, p2)) in
          match rhs with
          | None => Returns (None, p3)
          | Some rhs => parse_bin_op_rhs fuel lhs_prec (BinaryExpr op lhs rhs) p3
          end
      end
  end.

(** ** Prototypes and definitions *)

(** The loop [while (curr_token == TOK_IDENTIFIER)] of [parse_prototype]
    in the later revision (lines 855-858). *)
Fixpoint parse_prototype_args (fuel : nat) (args : list string) (p : Parser)
  : Outcome (list string * Parser) :=
  if curr_token p =? TOK_IDENTIFIER then
    match fuel with
    | O => OutOfFuel
    | S fuel =>
        parse_prototype_args fuel (args ++ [identifier_string (lexer p)])
          (get_next_token p)
    end
  else Returns (args, p).

(** [parse_prototype] around a given parameter loop. *)
Definition parse_prototype_with
    (loop : nat → list string → Parser → Outcome (list string * Parser))
    (fuel : nat) (p : Parser) : Outcome (option AstPrototype * Parser) :=
  if negb (curr_token p =? TOK_IDENTIFIER) then AssertFailed else
  let func_name := identifier_string (lexer p) in
  let p1 := get_next_token p in
  if negb (curr_token p1 =? chr "(")
  then Returns (log_error_proto "Expected '('" p1)
  else
    let p2 := get_next_token p1 in
    let* (args, p3) := loop fuel [] p2 in
    if negb (curr_token p3 =? chr ")")
    then Returns (log_error_proto "Expected '('" p3)
    else Returns (Some (mkProto func_name args), get_next_token p3).

(** Lines 844-866. *)
Definition parse_prototype := parse_prototype_with parse_prototype_args.

Module Early.
(** The parser-only revision: the loop of lines 301-303 captures the
    parameter name and does not read the next token. *)
Fixpoint parse_prototype_args (fuel : nat) (args : list string) (p : Parser)
  : Outcome (list string * Parser) :=
  if curr_token p =? TOK_IDENTIFIER then
    match fuel with
    | O => OutOfFuel
    | S fuel =>
        parse_prototype_args fuel (args ++ [identifier_string (lexer p)]) p
    end
  else Returns (args, p).

(** Lines 290-311. *)
Definition parse_prototype := parse_prototype_with parse_prototype_args.
End Early.

Definition parse_definition (fuel : nat) (p : Parser)
  : Outcome (option AstFuncDef * Parser) :=
  if negb (curr_token p =? TOK_DEF) then AssertFailed else
  let* (proto, p1) := parse_prototype fuel (get_next_token p) in
  match proto with
  | None => Returns (None, p1)
  | Some proto =>
      let* (body, p2) := parse_expr fuel p1 in
      match body with
      | None => Returns (None, p2)
      | Some body => Returns (Some (mkFuncDef proto body), p2)
      end
  end.

Definition parse_extern (fuel : nat) (p : Parser)
  : Outcome (option AstPrototype * Parser) :=
  if negb (curr_token p =? TOK_EXTERN) then AssertFailed else
  parse_prototype fuel (get_next_token p).

Definition parse_top_level_expr (fuel : nat) (p : Parser)
  : Outcome (option AstFuncDef * Parser) :=
  let* (expr, p1) := parse_expr fuel p in
  match expr with
  | None => Returns (None, p1)
  | Some expr => Returns (Some (mkFuncDef (mkProto "" []) expr), p1)
  end.

(** The parser positioned on the first token of [input], as [main] does
    with its first [get_next_token()]. *)
Definition parser_on (input : string) : Parser :=
  get_next_token (parser_init input).

(** ** The IR builder

    The lowering methods of the second revision call the LLVM library,
    which is no part of the repository; section 6 of the specification
    gives the capability they need, and the definitions below model it
    from there.  The methods are written with [.] for [->] and [proto]
    for the member [prototype] in places; they are read as the member
    accesses meant, and no call is added that the text does not make. *)

(** Modelled from the spec: the opaque IR value handle (section 3), a
    [Value*] of the source.  A constant, a formal of a function, or the
    result of an emitted operation; [NodePtr] is an AST node standing
    where a value is expected, which [CallExpr::codegen] produces. *)
Inductive Value :=
| ConstantFP (v : Q)
| Argument (func : nat) (index : nat)     (* &arg of a function *)
| Result (id : nat)                       (* the id-th emitted operation *)
| NodePtr (e : AstExpr).

(** Modelled from the spec: the operations of the IR-builder capability
    (section 6): add, sub, mul, unsigned-less-than compare,
    boolean-to-floating cast, call, return. *)
Inductive Instr :=
| FAdd (l r : Value)
| FSub (l r : Value)
| FMul (l r : Value)
| FCmpULT (l r : Value)
| UIToFP (v : Value)
| Call (callee : nat) (args : list Value)
| Ret (v : option Value).

(** Modelled from the spec: a function of the module: its name, the
    names of its formals, its basic blocks. *)
Record Function := mkFunction {
  fn_name : string;
  fn_args : list string;
  fn_blocks : list (list Instr)
}.

(** The globals of the lowering pass.  [functions], [symtab] and
    [next_handle] are [module]: its functions by handle, its symbol
    table, and the next handle to give out.  [insert_point] and
    [emitted] are [builder]: the block it points at, and every operation
    it was asked to create, in order.  [named_values] is the scope table
    of the source, a null [Value*] being [None]. *)
Record IRState := mkIR {
  functions : gmap nat Function;
  symtab : gmap string nat;
  next_handle : nat;
  insert_point : option (nat * nat);       (* function handle, block index *)
  named_values : gmap string (option Value);
  emitted : list Instr;
  cg_stderr : list string
}.

Definition ir_init : IRState :=
  {| functions := ∅; symtab := ∅; next_handle := 0%nat; insert_point := None;
     named_values := ∅; emitted := []; cg_stderr := [] |}.

Definition set_named_values (nv : gmap string (option Value)) (st : IRState)
  : IRState :=
  {| functions := functions st; symtab := symtab st;
     next_handle := next_handle st; insert_point := insert_point st;
     named_values := nv; emitted := emitted st; cg_stderr := cg_stderr st |}.

(** [log_error_val] (lines 714-717). *)
Definition log_error_val (msg : string) (st : IRState)
  : option Value * IRState :=
  (None,
   {| functions := functions st; symtab := symtab st;
      next_handle := next_handle st; insert_point := insert_point st;
      named_values := named_values st; emitted := emitted st;
      cg_stderr := cg_stderr st ++ ["Error: " +:+ msg] |}).

(** Modelled from the spec: lookup-function-by-name,
    [module->getFunction(name)]. *)
Definition getFunction (name : string) (st : IRState) : option nat :=
  symtab st !! name.

(** Modelled from the spec: create-function,
    [Function::Create(type, ExternalLinkage, name, module)] followed by
    the naming of the formals.  A name that is taken is replaced by an
    unused one derived from it; a function created with the empty name
    gets no entry in the symbol table. *)
Definition Function_Create (name : string) (args : list string)
    (st : IRState) : nat * IRState :=
  let h := next_handle st in
  let name' := if decide (name = "") then name
               else fresh_string name (symtab st) in
  (h,
   {| functions := <[h := mkFunction name' args []]> (functions st);
      symtab := if decide (name = "") then symtab st
                else <[name' := h]> (symtab st);
      next_handle := S h; insert_point := insert_point st;
      named_values := named_values st; emitted := emitted st;
      cg_stderr := cg_stderr st |}).

(** Modelled from the spec: the formals of a function, [func->args()],
    by name. *)
Definition function_args (h : nat) (st : IRState) : list string :=
  match functions st !! h with
  | Some f => fn_args f
  | None => []
  end.

(** Modelled from the spec: the declared parameter count,
    [func->arg_size()]. *)
Definition arg_size (h : nat) (st : IRState) : nat :=
  length (function_args h st).

(** Modelled from the spec: whether the function has a body,
    [func->empty()]: it has no basic block. *)
Definition Function_empty (h : nat) (st : IRState) : bool :=
  match functions st !! h with
  | Some f => bool_decide (fn_blocks f = [])
  | None => true
  end.

(** Modelled from the spec: the function discarded,
    [func->eraseFromParent()]: it leaves the module and the symbol
    table. *)
Definition eraseFromParent (h : nat) (st : IRState) : IRState :=
  {| functions := delete h (functions st);
     symtab := filter (λ kv, kv.2 ≠ h) (symtab st);
     next_handle := next_handle st; insert_point := insert_point st;
     named_values := named_values st; emitted := emitted st;
     cg_stderr := cg_stderr st |}.

(** Modelled from the spec: create-basic-block-and-position-builder,
    [BasicBlock::Create(context, "entry", func)] and
    [builder->SetInsertPoint(block)]. *)
Definition BasicBlock_Create (h : nat) (st : IRState) : IRState :=
  match functions st !! h with
  | Some f =>
      {| functions :=
           <[h := mkFunction (fn_name f) (fn_args f) (fn_blocks f ++ [[]])]>
             (functions st);
         symtab := symtab st; next_handle := next_handle st;
         insert_point := Some (h, length (fn_blocks f));
         named_values := named_values st; emitted := emitted st;
         cg_stderr := cg_stderr st |}
  | None => st
  end.

(** Modelled from the spec: an operation appended to the block the
    builder points at, when the module still has that block. *)
Definition place (i : Instr) (at_ : option (nat * nat))
    (fs : gmap nat Function) : gmap nat Function :=
  match at_ with
  | Some (h, b) =>
      alter (λ f, mkFunction (fn_name f) (fn_args f)
                    (alter (λ blk, blk ++ [i]) b (fn_blocks f))) h fs
  | None => fs
  end.

(** Modelled from the spec: any create-operation of the builder,
    [builder->Create...]: the operation is recorded and placed, and the
    handle of its result returned.  Folding of constant operands by the
    backend is not modelled. *)
Definition emit (i : Instr) (st : IRState) : Value * IRState :=
  (Result (length (emitted st)),
   {| functions := place i (insert_point st) (functions st);
      symtab := symtab st; next_handle := next_handle st;
      insert_point := insert_point st; named_values := named_values st;
      emitted := emitted st ++ [i]; cg_stderr := cg_stderr st |}).

Definition emit_value (i : Instr) (st : IRState) : option Value * IRState :=
  let '(v, st') := emit i st in (Some v, st').

(** ** Lowering *)

(** [named_values[name]]: [operator[]] enters a null value for a name
    the map does not hold. *)
Definition named_values_at (name : string) (st : IRState)
  : option Value * IRState :=
  match named_values st !! name with
  | Some v => (v, st)
  | None => (None, set_named_values (<[name := None]> (named_values st)) st)
  end.

(** [AstExpr::codegen], the four overrides (lines 537-616).  The loop of
    [CallExpr::codegen] pushes each argument node itself,
    [arg_vals.push_back(arg)], and calls no [codegen] on it; the nodes
    of a parsed call are never null, so its null test never fires.  The
    text of the last diagnostic of [BinaryExpr::codegen] is the one its
    pieces spell. *)
Fixpoint codegen (e : AstExpr) (st : IRState) : option Value * IRState :=
  match e with
  | NumLiteralExpr value => (Some (ConstantFP value), st)
  | VarExpr name =>
      let '(val, st1) := named_values_at name st in
      match val with
      | None =>
          log_error_val ("Attempted access of undefined variable " +:+ name)
            st1
      | Some v => (Some v, st1)
      end
  | BinaryExpr kld_op lhs rhs =>
      let '(left', st1) := codegen lhs st in
      let '(right', st2) := codegen rhs st1 in
      match left', right' with
      | Some left', Some right' =>
          if kld_op =? chr "+" then emit_value (FAdd left' right') st2
          else if kld_op =? chr "*" then emit_value (FMul left' right') st2
          else if kld_op =? chr "-" then emit_value (FSub left' right') st2
          else if kld_op =? chr "<" then
            let '(cmp, st3) := emit (FCmpULT left' right') st2 in
            emit_value (UIToFP cmp) st3
          else
            log_error_val
              ("Invalid binary operator '"
                 +:+ String (ascii_of_char kld_op) "'") st2
      | _, _ => (None, st2)
      end
  | CallExpr callee_name args =>
      match getFunction callee_name st with
      | None => log_error_val "Unknown function being called" st
      | Some callee_func =>
          if negb (arg_size callee_func st =? length args)%nat
          then log_error_val
                 "Wrong number of arguments provided in function call" st
          else
            let arg_vals := map NodePtr args in
            emit_value (Call callee_func arg_vals) st
      end
  end.

(** [AstPrototype::codegen] (lines 632-643). *)
Definition AstPrototype_codegen (proto : AstPrototype) (st : IRState)
  : option nat * IRState :=
  let '(h, st') := Function_Create (proto_name proto) (arg_names proto) st in
  (Some h, st').

(** The scope table filled from the formals:
    [named_values[arg.getName()] = &arg] for each one in order. *)
Fixpoint bind_args (h : nat) (i : nat) (names : list string)
    (nv : gmap string (option Value)) : gmap string (option Value) :=
  match names with
  | [] => nv
  | n :: rest => bind_args h (S i) rest (<[n := Some (Argument h i)]> nv)
  end.

(** [AstFuncDef::codegen] (lines 655-683) in its three stretches:
    lines 656-666, the function resolved or created, and the
    redefinition guard; *)
Definition AstFuncDef_resolve (d : AstFuncDef) (st : IRState)
  : option nat * IRState :=
  let '(func, st1) :=
    match getFunction (proto_name (prototype d)) st with
    | Some h => (Some h, st)
    | None => AstPrototype_codegen (prototype d) st
    end in
  match func with
  | None => (None, st1)
  | Some h =>
      if negb (Function_empty h st1)
      then (None, (log_error_val "Function body already defined." st1).2)
      else (Some h, st1)
  end.

(** lines 668-674, the entry block and the scope table; *)
Definition AstFuncDef_enter (h : nat) (st : IRState) : IRState :=
  let st1 := BasicBlock_Create h st in
  set_named_values (bind_args h 0 (function_args h st1) ∅) st1.

(** lines 676-682, the body and the return.  The result of
    [verifyFunction] is not looked at. *)
Definition AstFuncDef_codegen (d : AstFuncDef) (st : IRState)
  : option nat * IRState :=
  match AstFuncDef_resolve d st with
  | (None, st1) => (None, st1)
  | (Some func, st1) =>
      let st2 := AstFuncDef_enter func st1 in
      let '(body_retval, st3) := codegen (body d) st2 in
      let st4 := match body_retval with
                 | None => eraseFromParent func st3
                 | Some _ => st3
                 end in
      let '(_, st5) := emit (Ret body_retval) st4 in
      (Some func, st5)
  end.

(** ** Vocabulary of the statements *)

(** The lexer after [n] more calls of [get_token]. *)
Definition after_tokens (n : nat) (lx : Lexer) : Lexer :=
  Nat.iter n (λ l, (get_token l).2) lx.

(** [parse_primary] started in [p] returns the node [e] and leaves the
    parser in [p']. *)
Definition parses_primary (p : Parser) (e : AstExpr) (p' : Parser) : Prop :=
  ∃ n, parse_primary n p = Returns (Some e, p').

(** The precedence of the current token, as [parse_bin_op_rhs] reads it. *)
Definition curr_prec (p : Parser) : Z :=
  get_binary_precedence (to_char (curr_token p)).

(** A parser state written out: current token, [last_char], unread
    input, [identifier_string], [number_val]; nothing logged. *)
Definition parser_at (tok last : Z) (rest id : string) (num : Q) : Parser :=
  {| lexer := {| last_char := last; stdin := rest;
                 identifier_string := id; number_val := num |};
     curr_token := tok; stderr := [] |}.

(** From [p] the input goes on with operators of precedence [prec], each
    followed by a primary expression: [ops] lists them, [p'] is the
    parser after the last operand. *)
Inductive op_chain (prec : Z) : Parser → list (Z * AstExpr) → Parser → Prop :=
| op_chain_nil p : op_chain prec p [] p
| op_chain_cons p rhs p1 rest p' :
    curr_prec p = prec →
    parses_primary (get_next_token p) rhs p1 →
    op_chain prec p1 rest p' →
    op_chain prec p ((to_char (curr_token p), rhs) :: rest) p'.

(** The tree of a left-associative chain. *)
Definition left_tree (lhs : AstExpr) (ops : list (Z * AstExpr)) : AstExpr :=
  foldl (λ l o, BinaryExpr o.1 l o.2) lhs ops.

(** [s] is a node of the tree [e]. *)
Inductive subexpr (s : AstExpr) : AstExpr → Prop :=
| subexpr_refl : subexpr s s
| subexpr_lhs op l r : subexpr s l → subexpr s (BinaryExpr op l r)
| subexpr_rhs op l r : subexpr s r → subexpr s (BinaryExpr op l r)
| subexpr_arg callee args a :
    a ∈ args → subexpr s a → subexpr s (CallExpr callee args).

(** From [p] the input goes on with the identifiers [names] and then, in
    [p'], a token that is no identifier. *)
Inductive ident_run : Parser → list string → Parser → Prop :=
| ident_run_nil p :
    curr_token p ≠ TOK_IDENTIFIER → ident_run p [] p
| ident_run_cons p names p' :
    curr_token p = TOK_IDENTIFIER →
    ident_run (get_next_token p) names p' →
    ident_run p (identifier_string (lexer p) :: names) p'.

(** [r1] is what a run with less fuel gives where [r2] is what a run with
    more fuel gives. *)
Definition approx {A} (r1 r2 : Outcome A) : Prop :=
  r1 = OutOfFuel ∨ r1 = r2.

(** The name [x] is bound to a value in the scope table. *)
Definition bound (x : string) (st : IRState) : Prop :=
  ∃ v, named_values st !! x = Some (Some v).

(** In the lowering of [e] from the state [st], the expression [e'] is
    lowered from the state [st']: [e] itself, or what is lowered in an
    operand of a binary expression, the right operand after the left
    one.  (The arguments of a call are not lowered.) *)
Inductive lowered_at : AstExpr → IRState → AstExpr → IRState → Prop :=
| lowered_here e st : lowered_at e st e st
| lowered_left op l r st e' st' :
    lowered_at l st e' st' → lowered_at (BinaryExpr op l r) st e' st'
| lowered_right op l r st e' st' :
    lowered_at r (codegen l st).2 e' st' →
    lowered_at (BinaryExpr op l r) st e' st'.

(** [st'] has the functions of [st], with the same formals, the same
    symbol table, builder position and bound names: what lowering an
    expression leaves in place. *)
Definition same_module (st st' : IRState) : Prop :=
  symtab st' = symtab st ∧
  next_handle st' = next_handle st ∧
  insert_point st' = insert_point st ∧
  dom (functions st') = dom (functions st) ∧
  (∀ h, function_args h st' = function_args h st) ∧
  (∀ x, bound x st' ↔ bound x st).


(** ** Inputs of the examples *)

(** [def foo(a) a], [def foo(a) a+1], [def foo(a) b] and
    [def foo(a b) a+b] as the parser builds them. *)
Definition def_foo_id : AstFuncDef :=
  mkFuncDef (mkProto "foo" ["a"]) (VarExpr "a").
Definition def_foo_unbound : AstFuncDef :=
  mkFuncDef (mkProto "foo" ["a"]) (VarExpr "b").
Definition def_foo_sum : AstFuncDef :=
  mkFuncDef (mkProto "foo" ["a"; "b"])
    (BinaryExpr (chr "+") (VarExpr "a") (VarExpr "b")).

(** The call [f(1+x)] as the parser builds it
    ([call_with_one_argument]). *)
Definition call_f_1_plus_x : AstExpr :=
  CallExpr "f" [BinaryExpr (chr "+") (NumLiteralExpr 1) (VarExpr "x")].

(** [def foo(x y) x] and [def bar(b) b+a]. *)
Definition def_foo_xy : AstFuncDef :=
  mkFuncDef (mkProto "foo" ["x"; "y"]) (VarExpr "x").
Definition def_bar_uses_a : AstFuncDef :=
  mkFuncDef (mkProto "bar" ["b"])
    (BinaryExpr (chr "+") (VarExpr "b") (VarExpr "a")).

(** The module after [extern foo(a b)] was lowered, after [extern f(a)]
    was, and after [def foo(a) a] was. *)
Definition ir_extern_foo : IRState :=
  (AstPrototype_codegen (mkProto "foo" ["a"; "b"]) ir_init).2.
Definition ir_extern_f : IRState :=
  (AstPrototype_codegen (mkProto "f" ["a"]) ir_init).2.
Definition ir_def_foo_id : IRState :=
  (AstFuncDef_codegen def_foo_id ir_init).2.

(** The module after [def foo(a) a], with [bar(b)] created for the
    definition [def bar(b) b+a] that is lowered next. *)
Definition ir_bar_created : IRState :=
  (AstPrototype_codegen (mkProto "bar" ["b"]) ir_def_foo_id).2.

(** ** The driver (lines 908-960) *)

(** A line a handler writes to standard error. *)
Definition report (line : string) (p : Parser) : Parser :=
  {| lexer := lexer p; curr_token := curr_token p;
     stderr := stderr p ++ [line] |}.

Definition handle_definition (fuel : nat) (p : Parser) : Outcome Parser :=
  let* (def, p1) := parse_definition fuel p in
  match def with
  | None => Returns (get_next_token p1)   (* skip the token we failed on *)
  | Some _ => Returns (report "Found a definition!" p1)
  end.

Definition handle_extern (fuel : nat) (p : Parser) : Outcome Parser :=
  let* (decl, p1) := parse_extern fuel p in
  match decl with
  | None => Returns (get_next_token p1)
  | Some _ => Returns (report "Found a extern!" p1)
  end.

Definition handle_top_level_expr (fuel : nat) (p : Parser) : Outcome Parser :=
  let* (expr, p1) := parse_top_level_expr fuel p in
  match expr with
  | None => Returns (get_next_token p1)
  | Some _ => Returns (report "Found a top level expression!" p1)
  end.

(** The [while (true)] of [main]: the exit status and the final state. *)
Fixpoint main_loop (fuel : nat) (p : Parser) : Outcome (Z * Parser) :=
  match fuel with
  | O => OutOfFuel
  | S fuel =>
      if curr_token p =? TOK_EOF then Returns (0, p)
      else if curr_token p =? chr ";" then main_loop fuel (get_next_token p)
      else if curr_token p =? TOK_DEF then
        let* p1 := handle_definition fuel p in main_loop fuel p1
      else if curr_token p =? TOK_EXTERN then
        let* p1 := handle_extern fuel p in main_loop fuel p1
      else
        let* p1 := handle_top_level_expr fuel p in main_loop fuel p1
  end.


(** ** Vocabulary of the further statements *)

(** Every character of [s], as [getchar] delivers it, satisfies [P]. *)
Fixpoint all_chars (P : Z → bool) (s : string) : bool :=
  match s with
  | EmptyString => true
  | String a r => P (to_char (chr a)) && all_chars P r
  end.

(** The characters the lexer has still to deal with: the unread input,
    and [last_char] unless it is [EOF]. *)
Definition lexer_measure (lx : Lexer) : nat :=
  (String.length (stdin lx) + (if (last_char lx =? EOF)%Z then 0 else 1))%nat.

(** The same for the parser, with the current token counted unless it
    is the end of input. *)
Definition cursor_measure (p : Parser) : nat :=
  (lexer_measure (lexer p)
   + (if (curr_token p =? TOK_EOF)%Z then 0 else 1))%nat.

(** Every binary operator of the tree is one of the four of the
    precedence table (the arguments of calls included). *)
#[warnings="-register-all"]
Inductive ops_known : AstExpr → Prop :=
| ops_known_num v : ops_known (NumLiteralExpr v)
| ops_known_var x : ops_known (VarExpr x)
| ops_known_bin op l r :
    op = chr "<" ∨ op = chr "+" ∨ op = chr "-" ∨ op = chr "*" →
    ops_known l → ops_known r → ops_known (BinaryExpr op l r)
| ops_known_call callee args :
    Forall ops_known args → ops_known (CallExpr callee args).

(** Every call of the tree has at most one argument. *)
#[warnings="-register-all"]
Inductive calls_unary : AstExpr → Prop :=
| calls_unary_num v : calls_unary (NumLiteralExpr v)
| calls_unary_var x : calls_unary (VarExpr x)
| calls_unary_bin op l r :
    calls_unary l → calls_unary r → calls_unary (BinaryExpr op l r)
| calls_unary_call callee args :
    (length args ≤ 1)%nat → Forall calls_unary args →
    calls_unary (CallExpr callee args).

Example lex_demo :
  tokens 4 (lexer_init "x1 # note
 3.25;") = [T_identifier "x1"; T_number (13 # 4); T_char ";"; T_eof].
Proof. vm_compute. reflexivity. Qed.

Example parse_demo :
  parse_expr 20 (parser_on "(1+2)*3") =
  Returns (Some (BinaryExpr (chr "*")
                   (BinaryExpr (chr "+") (NumLiteralExpr 1) (NumLiteralExpr 2))
                   (NumLiteralExpr 3)),
           {| lexer := {| last_char := EOF; stdin := "";
                          identifier_string := ""; number_val := 3 |};
              curr_token := TOK_EOF; stderr := [] |}).
Proof. vm_compute. reflexivity. Qed.

(** * The lexer *)

Section LexerFacts.

Lemma loop_conds_stop_at_EOF :
  isspace EOF = false ∧ isalnum EOF = false ∧
  in_number EOF = false ∧ in_comment EOF = false.
Proof. repeat split. Qed.

Lemma read_while_length cond inp : ∀ acc c,
  (String.length (read_while cond acc c inp).2 ≤ String.length inp)%nat.
Proof.
  induction inp as [|a r IH]; intros acc c; simpl.
  - destruct (cond c); simpl; lia.
  - destruct (cond c); simpl; [|lia].
    specialize (IH (push_back acc c) (to_char (chr a))). lia.
Qed.

Lemma skip_space_length c inp c' inp' :
  skip_space c inp = (c', inp') →
  (String.length inp' ≤ String.length inp)%nat.
Proof.
  unfold skip_space. intros H.
  pose proof (read_while_length isspace inp "" c) as Hl.
  destruct (read_while isspace "" c inp) as [[? ?] ?].
  simpl in Hl. by simplify_eq.
Qed.

Lemma skip_line_length c inp c' inp' :
  skip_line c inp = (c', inp') →
  (String.length inp' ≤ String.length inp)%nat.
Proof.
  unfold skip_line. intros H.
  pose proof (read_while_length in_comment inp "" c) as Hl.
  destruct (read_while in_comment "" c inp) as [[? ?] ?].
  simpl in Hl. by simplify_eq.
Qed.

Lemma getchar_length inp c inp' :
  getchar inp = (c, inp') → (String.length inp' ≤ String.length inp)%nat.
Proof. destruct inp; intros; simplify_eq/=; lia. Qed.

(** A comment that ends in a line break has used up a character. *)
Lemma comment_consumes inp c1 inp1 c2 inp2 c3 inp3 :
  getchar inp = (c1, inp1) →
  skip_line c1 inp1 = (c2, inp2) →
  (c2 =? EOF) = false →
  getchar inp2 = (c3, inp3) →
  (String.length inp3 < String.length inp)%nat.
Proof.
  intros Hg Hs Hne Hg'.
  destruct inp as [|a r]; simplify_eq/=.
  - unfold skip_line in Hs. simpl in Hs. by simplify_eq.
  - apply skip_line_length in Hs. apply getchar_length in Hg'. lia.
Qed.

(** [get_token] returns: the fuel it is run with is never used up. *)
Lemma get_token_rec_total fuel : ∀ lx,
  (String.length (stdin lx) ≤ fuel)%nat → is_Some (get_token_rec fuel lx).
Proof.
  induction fuel as [|fuel IH]; intros lx Hlen.
  - destruct lx as [c0 inp0 ids nv]. simpl in Hlen.
    destruct inp0; [|simpl in Hlen; lia].
    cbn -[isspace isalpha isdigit read_while].
    unfold skip_space. simpl.
    destruct (isspace c0); simpl.
    + eauto.
    + destruct (isalpha c0); [eauto|].
      destruct (isdigit c0); [eauto|].
      destruct (c0 =? chr "#"); [simpl; eauto|].
      destruct (c0 =? EOF); eauto.
  - simpl.
    destruct (skip_space (last_char lx) (stdin lx)) as [c inp] eqn:Hsp.
    apply skip_space_length in Hsp.
    destruct (isalpha c).
    { destruct (getchar inp) as [c1 inp1].
      destruct (read_while isalnum _ c1 inp1) as [[? ?] ?]. eauto. }
    destruct (isdigit c).
    { destruct (getchar inp) as [c1 inp1].
      destruct (read_while in_number _ c1 inp1) as [[? ?] ?]. eauto. }
    destruct (c =? chr "#").
    { destruct (getchar inp) as [c1 inp1] eqn:Hg.
      destruct (skip_line c1 inp1) as [c2 inp2] eqn:Hsl.
      destruct (c2 =? EOF) eqn:Hc2; simpl; [eauto|].
      destruct (getchar inp2) as [c3 inp3] eqn:Hg'.
      apply IH. simpl.
      pose proof (comment_consumes _ _ _ _ _ _ _ Hg Hsl Hc2 Hg'). lia. }
    destruct (c =? EOF); [eauto|].
    destruct (getchar inp) as [c1 inp1]. eauto.
Qed.

Lemma get_token_unfold lx :
  get_token_rec (String.length (stdin lx)) lx = Some (get_token lx).
Proof.
  unfold get_token.
  destruct (get_token_rec_total (String.length (stdin lx)) lx) as [r Hr];
    [lia|]. by rewrite Hr.
Qed.

(** The end-of-input token is returned only with [last_char] at [EOF]. *)
Lemma get_token_rec_eof fuel : ∀ lx lx',
  get_token_rec fuel lx = Some (TOK_EOF, lx') → last_char lx' = EOF.
Proof.
  induction fuel as [|fuel IH]; intros lx lx'; simpl;
    destruct (skip_space (last_char lx) (stdin lx)) as [c inp];
    (destruct (isalpha c);
     [ destruct (getchar inp) as [c1 inp1];
       destruct (read_while isalnum _ c1 inp1) as [[id ?] ?];
       unfold string_to_keyword;
       destruct (String.eqb id "def"); [by intros ?; simplify_eq|];
       destruct (String.eqb id "extern"); by intros ?; simplify_eq |]);
    (destruct (isdigit c);
     [ destruct (getchar inp) as [c1 inp1];
       destruct (read_while in_number _ c1 inp1) as [[? ?] ?];
       by intros ?; simplify_eq |]);
    (destruct (c =? chr "#");
     [ destruct (getchar inp) as [c1 inp1];
       destruct (skip_line c1 inp1) as [c2 inp2];
       destruct (c2 =? EOF) eqn:Hc2; simpl;
       [ intros ?; simplify_eq/=; by apply Z.eqb_eq in Hc2
       | destruct (getchar inp2) as [c3 inp3]; try done; by apply IH ] |]);
    (destruct (c =? EOF) eqn:Hc;
     [ intros ?; simplify_eq/=; by apply Z.eqb_eq in Hc |]);
    destruct (getchar inp) as [c1 inp1]; intros ?; simplify_eq/=;
    unfold TOK_EOF, EOF in *; by rewrite Z.eqb_refl in Hc.
Qed.

(** With [last_char] at [EOF] nothing is read and nothing changes. *)
Lemma get_token_at_eof lx :
  last_char lx = EOF → get_token lx = (TOK_EOF, lx).
Proof.
  intros Hc. pose proof (get_token_unfold lx) as Hu.
  destruct lx as [c0 inp0 ids nv]; simpl in *; subst c0.
  assert (skip_space EOF inp0 = (EOF, inp0)) as Hsp
    by (unfold skip_space; by destruct inp0).
  destruct (String.length inp0); simpl in Hu; rewrite Hsp in Hu;
    simpl in Hu; by simplify_eq.
Qed.

End LexerFacts.

(** C9: the token sequence of "def foo(a b) a+b*2", white space skipped
    before each token is classified: def, identifier foo, '(',
    identifier a, identifier b, ')', identifier a, '+', identifier b,
    '*', number 2, end of input. *)
Theorem tokens_of_def_foo :
  tokens 12 (lexer_init "def foo(a b) a+b*2") =
  [T_def; T_identifier "foo"; T_char "("; T_identifier "a";
   T_identifier "b"; T_char ")"; T_identifier "a"; T_char "+";
   T_identifier "b"; T_char "*"; T_number (2 # 1); T_eof].
Proof. vm_compute. reflexivity. Qed.

(** C10: the end-of-input token is absorbing.  Once [get_token] has
    returned [TOK_EOF], from whatever lexer state, [last_char] holds
    [EOF] and every later call returns [TOK_EOF] again. *)
Theorem eof_is_absorbing (lx : Lexer) (n : nat) :
  (get_token lx).1 = TOK_EOF →
  last_char (get_token lx).2 = EOF ∧
  (get_token (after_tokens n (get_token lx).2)).1 = TOK_EOF.
Proof.
  intros Ht.
  assert (last_char (get_token lx).2 = EOF) as Hc.
  { pose proof (get_token_unfold lx) as Hu.
    destruct (get_token lx) as [t lx']. simpl in *. subst t.
    by eapply get_token_rec_eof. }
  split; [done|].
  assert (after_tokens n (get_token lx).2 = (get_token lx).2) as ->.
  { induction n as [|n IH]; [done|].
    unfold after_tokens in *. simpl. rewrite IH.
    by rewrite get_token_at_eof. }
  by rewrite get_token_at_eof.
Qed.

Lemma eof_is_absorbing_witness :
  last_char (get_token (get_token (lexer_init "1 # to the end")).2).2 = EOF ∧
  (get_token (after_tokens 3
     (get_token (get_token (lexer_init "1 # to the end")).2).2)).1 = TOK_EOF.
Proof.
  apply (eof_is_absorbing (get_token (lexer_init "1 # to the end")).2 3).
  vm_compute. reflexivity.
Defined.

(** * The parser *)

Section Fuel.

Lemma approx_refl {A} (r : Outcome A) : approx r r.
Proof. by right. Qed.

Lemma approx_bind {A B} (m1 m2 : Outcome A) (k1 k2 : A → Outcome B) :
  approx m1 m2 → (∀ a, approx (k1 a) (k2 a)) →
  approx (bind m1 k1) (bind m2 k2).
Proof.
  intros [->| ->] Hk; [by left|].
  destruct m2; simpl; [apply Hk|by right|by right].
Qed.

Lemma approx_returns {A} (r1 r2 : Outcome A) a :
  approx r1 r2 → r1 = Returns a → r2 = Returns a.
Proof. intros [->| ->]; [discriminate|done]. Qed.

Local Ltac fuel_step :=
  repeat first
    [ apply approx_refl
    | by auto
    | apply approx_bind; [|intros [[?|] ?]]
    | match goal with
      | |- approx (if ?c then _ else _) _ => destruct c
      end ].

(** More fuel never changes what a parse function returns. *)
Lemma parse_fuel_mono n : ∀ m, (n ≤ m)%nat →
  (∀ p, approx (parse_expr n p) (parse_expr m p)) ∧
  (∀ p, approx (parse_primary n p) (parse_primary m p)) ∧
  (∀ p, approx (parse_paren_expr n p) (parse_paren_expr m p)) ∧
  (∀ p, approx (parse_identifier n p) (parse_identifier m p)) ∧
  (∀ args p, approx (parse_identifier_args n args p)
                    (parse_identifier_args m args p)) ∧
  (∀ prec lhs p, approx (parse_bin_op_rhs n prec lhs p)
                        (parse_bin_op_rhs m prec lhs p)).
Proof.
  induction n as [|n IH]; intros m Hle.
  { repeat split; intros; by left. }
  destruct m as [|m]; [lia|].
  destruct (IH m ltac:(lia)) as (He & Hp & Hpe & Hi & Hia & Hb).
  repeat split; intros;
    cbn -[get_next_token get_binary_precedence to_char pretty
          log_error_expr log_error parse_number];
    fuel_step.
Qed.

Lemma parse_primary_fuel n m p r :
  parse_primary n p = Returns r → (n ≤ m)%nat →
  parse_primary m p = Returns r.
Proof.
  intros H Hle. eapply approx_returns; [|done].
  by apply (parse_fuel_mono n m Hle).
Qed.

Lemma parse_expr_fuel n m p r :
  parse_expr n p = Returns r → (n ≤ m)%nat → parse_expr m p = Returns r.
Proof.
  intros H Hle. eapply approx_returns; [|done].
  by apply (parse_fuel_mono n m Hle).
Qed.

Lemma parse_bin_op_rhs_fuel n m prec lhs p r :
  parse_bin_op_rhs n prec lhs p = Returns r → (n ≤ m)%nat →
  parse_bin_op_rhs m prec lhs p = Returns r.
Proof.
  intros H Hle. eapply approx_returns; [|done].
  by apply (parse_fuel_mono n m Hle).
Qed.

Lemma parse_identifier_fuel n m p r :
  parse_identifier n p = Returns r → (n ≤ m)%nat →
  parse_identifier m p = Returns r.
Proof.
  intros H Hle. eapply approx_returns; [|done].
  by apply (parse_fuel_mono n m Hle).
Qed.

End Fuel.

Section PrecedenceClimbing.

Local Ltac unfold_rhs :=
  cbn -[get_next_token get_binary_precedence to_char];
  fold (curr_prec) in *;
  repeat match goal with
         | |- context [get_binary_precedence (to_char (curr_token ?p))] =>
             change (get_binary_precedence (to_char (curr_token p)))
               with (curr_prec p)
         end.

Lemma precedence_table :
  get_binary_precedence (chr "<") = 10 ∧
  get_binary_precedence (chr "+") = 20 ∧
  get_binary_precedence (chr "-") = 20 ∧
  get_binary_precedence (chr "*") = 40 ∧
  ∀ op, op ≠ chr "<" → op ≠ chr "+" → op ≠ chr "-" → op ≠ chr "*" →
        get_binary_precedence op = -1.
Proof.
  repeat split. intros op H1 H2 H3 H4. unfold get_binary_precedence.
  repeat case Z.eqb_spec; simpl; congruence.
Qed.

(** The loop leaves at a token of lower precedence. *)
Lemma bin_op_rhs_stop n prec lhs p :
  curr_prec p < prec →
  parse_bin_op_rhs (S n) prec lhs p = Returns (Some lhs, p).
Proof. intros H. unfold_rhs. case Z.ltb_spec; [done|lia]. Qed.

(** The operand is taken as it is when the operator after it does not
    bind tighter: no recursive call. *)
Lemma bin_op_rhs_left n prec lhs p rhs p2 :
  prec ≤ curr_prec p →
  parse_primary n (get_next_token p) = Returns (Some rhs, p2) →
  curr_prec p2 ≤ curr_prec p →
  parse_bin_op_rhs (S n) prec lhs p =
  parse_bin_op_rhs n prec (BinaryExpr (to_char (curr_token p)) lhs rhs) p2.
Proof.
  intros H1 H2 H3. unfold_rhs.
  case Z.ltb_spec; [lia|intros _]. rewrite H2. unfold_rhs.
  case Z.ltb_spec; [lia|done].
Qed.

(** The operand is regrouped first when the operator after it binds
    tighter. *)
Lemma bin_op_rhs_regroup n prec lhs p rhs p2 rhs' p3 :
  prec ≤ curr_prec p →
  parse_primary n (get_next_token p) = Returns (Some rhs, p2) →
  curr_prec p < curr_prec p2 →
  parse_bin_op_rhs n (curr_prec p + 1) rhs p2 = Returns (Some rhs', p3) →
  parse_bin_op_rhs (S n) prec lhs p =
  parse_bin_op_rhs n prec (BinaryExpr (to_char (curr_token p)) lhs rhs') p3.
Proof.
  intros H1 H2 H3 H4. unfold_rhs.
  case Z.ltb_spec; [lia|intros _]. rewrite H2. unfold_rhs.
  case Z.ltb_spec; [intros _|lia]. by rewrite H4.
Qed.

Lemma parse_expr_S n p lhs p1 :
  parse_primary n p = Returns (Some lhs, p1) →
  parse_expr (S n) p = parse_bin_op_rhs n 0 lhs p1.
Proof. intros H. cbn. by rewrite H. Qed.

(** [a op1 b op2 c] with [op2] binding tighter than [op1], then a token
    that is no operator. *)
Lemma regroup_right p a p1 b p2 c p3 :
  parses_primary p a p1 →
  parses_primary (get_next_token p1) b p2 →
  parses_primary (get_next_token p2) c p3 →
  0 ≤ curr_prec p1 < curr_prec p2 →
  curr_prec p3 < 0 →
  ∃ N, ∀ n, (N ≤ n)%nat →
    parse_expr n p =
    Returns (Some (BinaryExpr (to_char (curr_token p1)) a
                     (BinaryExpr (to_char (curr_token p2)) b c)), p3).
Proof.
  intros [na Ha] [nb Hb] [nc Hc] Hprec Hend.
  set (M := (na `max` (nb `max` nc))%nat).
  exists (S (S (S (S M)))). intros n Hn.
  eapply parse_expr_fuel; [|exact Hn].
  rewrite (parse_expr_S _ p a p1)
    by (eapply parse_primary_fuel; [done|lia]).
  rewrite (bin_op_rhs_regroup _ 0 a p1 b p2 (BinaryExpr (to_char (curr_token p2)) b c) p3);
    [ | lia | eapply parse_primary_fuel; [done|lia] | lia | ].
  - apply bin_op_rhs_stop. lia.
  - rewrite (bin_op_rhs_left _ _ b p2 c p3);
      [ | lia | eapply parse_primary_fuel; [done|lia] | lia ].
    apply bin_op_rhs_stop. lia.
Qed.

Lemma op_chain_head_prec prec p ops p' :
  op_chain prec p ops p' → curr_prec p' < prec → curr_prec p ≤ prec.
Proof. destruct 1; lia. Qed.

(** The loop folds a chain of equal precedence to the left. *)
Lemma bin_op_rhs_chain prec lhs_prec p ops p' :
  op_chain prec p ops p' →
  lhs_prec ≤ prec →
  curr_prec p' < lhs_prec →
  ∀ lhs, ∃ N,
    parse_bin_op_rhs N lhs_prec lhs p = Returns (Some (left_tree lhs ops), p').
Proof.
  intros Hch Hle Hend.
  induction Hch as [p|p rhs p1 rest p' Hp [nb Hb] Hch IH]; intros lhs.
  - exists 1%nat. by apply bin_op_rhs_stop.
  - destruct (IH Hend (BinaryExpr (to_char (curr_token p)) lhs rhs))
      as [N HN].
    exists (S (N `max` nb)).
    rewrite (bin_op_rhs_left _ _ lhs p rhs p1);
      [ | lia | eapply parse_primary_fuel; [done|lia]
        | rewrite Hp; eapply op_chain_head_prec; [done|lia] ].
    eapply parse_bin_op_rhs_fuel; [exact HN|lia].
Qed.

Lemma parse_primary_agree n m p r r' :
  parse_primary n p = Returns r → parse_primary m p = Returns r' → r = r'.
Proof.
  intros Hn Hm. destruct (Nat.le_ge_cases n m) as [Hle|Hle].
  - rewrite (parse_primary_fuel _ _ _ _ Hn Hle) in Hm. by simplify_eq.
  - rewrite (parse_primary_fuel _ _ _ _ Hm Hle) in Hn. by simplify_eq.
Qed.

Lemma parse_bin_op_rhs_agree n m prec lhs p r r' :
  parse_bin_op_rhs n prec lhs p = Returns r →
  parse_bin_op_rhs m prec lhs p = Returns r' → r = r'.
Proof.
  intros Hn Hm. destruct (Nat.le_ge_cases n m) as [Hle|Hle].
  - rewrite (parse_bin_op_rhs_fuel _ _ _ _ _ _ Hn Hle) in Hm.
    by simplify_eq.
  - rewrite (parse_bin_op_rhs_fuel _ _ _ _ _ _ Hm Hle) in Hn.
    by simplify_eq.
Qed.

(** One turn of the loop, read off a run that returned a tree. *)
Lemma bin_op_rhs_turn n prec lhs p e p' :
  parse_bin_op_rhs (S n) prec lhs p = Returns (Some e, p') →
  (curr_prec p < prec ∧ e = lhs ∧ p' = p) ∨
  (prec ≤ curr_prec p ∧
   ∃ rhs p2,
     parse_primary n (get_next_token p) = Returns (Some rhs, p2) ∧
     ((curr_prec p2 ≤ curr_prec p ∧
       parse_bin_op_rhs n prec
         (BinaryExpr (to_char (curr_token p)) lhs rhs) p2
       = Returns (Some e, p')) ∨
      (curr_prec p < curr_prec p2 ∧
       ∃ rhs' p3,
         parse_bin_op_rhs n (curr_prec p + 1) rhs p2
         = Returns (Some rhs', p3) ∧
         parse_bin_op_rhs n prec
           (BinaryExpr (to_char (curr_token p)) lhs rhs') p3
         = Returns (Some e, p')))).
Proof.
  unfold_rhs. case Z.ltb_spec; intros Hprec.
  { intros ?; simplify_eq. by left. }
  destruct (parse_primary n (get_next_token p)) as [[[rhs|] p2]| |];
    simpl; try done.
  intros H. right. split; [done|]. exists rhs, p2. split; [done|].
  revert H. unfold_rhs. case Z.ltb_spec; intros Hnext; simpl.
  - destruct (parse_bin_op_rhs n (curr_prec p + 1) rhs p2)
      as [[[rhs'|] p3]| |]; simpl; try done.
    intros H. right. split; [done|]. by exists rhs', p3.
  - intros H. left. by split.
Qed.

(** The tree the loop returns holds the left operand it was given. *)
Lemma bin_op_rhs_contains_lhs n : ∀ prec lhs p e p',
  parse_bin_op_rhs n prec lhs p = Returns (Some e, p') → subexpr lhs e.
Proof.
  induction n as [|n IH]; intros prec lhs p e p' H; [done|].
  apply bin_op_rhs_turn in H
    as [(_ & -> & _)|(_ & rhs & p2 & _ &
          [(_ & H)|(_ & rhs' & p3 & _ & H)])].
  - constructor.
  - apply IH in H. clear IH.
    induction H; [apply subexpr_lhs; constructor|by constructor..|].
    by eapply subexpr_arg.
  - apply IH in H. clear IH.
    induction H; [apply subexpr_lhs; constructor|by constructor..|].
    by eapply subexpr_arg.
Qed.

Lemma op_chain_ops prec p ops p' :
  op_chain prec p ops p' →
  Forall (λ o, get_binary_precedence o.1 = prec) ops.
Proof. induction 1; constructor; auto. Qed.

Lemma left_tree_snoc lhs ops o :
  left_tree lhs (ops ++ [o]) = BinaryExpr o.1 (left_tree lhs ops) o.2.
Proof. unfold left_tree. by rewrite foldl_app. Qed.

Lemma precedence_40_is_times op :
  get_binary_precedence op = 40 → op = chr "*".
Proof.
  unfold get_binary_precedence.
  repeat case Z.eqb_spec; simpl; intros; (done || lia).
Qed.

Lemma precedence_below_40 op :
  get_binary_precedence op < 40 → get_binary_precedence op ≤ 20.
Proof.
  unfold get_binary_precedence.
  repeat case Z.eqb_spec; simpl; intros; lia.
Qed.

(** A product chain that is not empty is a tree with '*' at its root. *)
Lemma product_tree p ops p' lhs :
  op_chain 40 p ops p' → ops ≠ [] →
  ∃ l r, left_tree lhs ops = BinaryExpr (chr "*") l r.
Proof.
  intros Hch Hne. apply op_chain_ops in Hch.
  destruct ops as [|o ops _] using rev_ind; [done|].
  rewrite Forall_app, Forall_singleton in Hch. destruct Hch as [_ Ho].
  rewrite left_tree_snoc, (precedence_40_is_times _ Ho). eauto.
Qed.

(** Wherever the loop stands at a '+' whose right operand is followed by
    '*': the operand and the products after it are grouped first and
    become the right child of the '+' node, which is a node of the tree
    the loop returns. *)
Lemma plus_takes_product n lhs_prec lhs p1 b p2 ops p3 e p' :
  lhs_prec ≤ 20 →
  curr_token p1 = chr "+" →
  parses_primary (get_next_token p1) b p2 →
  curr_token p2 = chr "*" →
  op_chain 40 p2 ops p3 →
  curr_prec p3 < 40 →
  parse_bin_op_rhs n lhs_prec lhs p1 = Returns (Some e, p') →
  subexpr (BinaryExpr (chr "+") lhs (left_tree b ops)) e.
Proof.
  intros Hprec Hplus [nb Hb] Htimes Hch Hend Hrun.
  assert (curr_prec p1 = 20) as Hp1 by (unfold curr_prec; by rewrite Hplus).
  assert (curr_prec p2 = 40) as Hp2 by (unfold curr_prec; by rewrite Htimes).
  apply precedence_below_40 in Hend. fold (curr_prec p3) in Hend.
  destruct (bin_op_rhs_chain 40 21 p2 ops p3 Hch ltac:(lia) ltac:(lia) b)
    as [N HN].
  destruct n as [|n]; [done|].
  apply bin_op_rhs_turn in Hrun
    as [(? & _)|(_ & rhs & q2 & Hrhs &
          [(? & _)|(_ & rhs' & q3 & Hin & Hrun)])]; [lia| |].
  - pose proof (parse_primary_agree _ _ _ _ _ Hb Hrhs). simplify_eq. lia.
  - pose proof (parse_primary_agree _ _ _ _ _ Hb Hrhs). simplify_eq.
    rewrite Hp1 in Hin. simpl in Hin.
    pose proof (parse_bin_op_rhs_agree _ _ _ _ _ _ _ HN Hin). simplify_eq.
    apply bin_op_rhs_contains_lhs in Hrun.
    by rewrite Hplus in Hrun.
Qed.

Lemma op_chain_head_le prec p ops p' :
  op_chain prec p ops p' → curr_prec p' ≤ prec → curr_prec p ≤ prec.
Proof. destruct 1; lia. Qed.

(** Wherever the loop stands at a chain of equal precedence that is not
    followed by a tighter operator: the chain is folded to the left onto
    the operand the loop holds, and that tree is a node of the tree the
    loop returns. *)
Lemma chain_folds_left prec p ops p' :
  op_chain prec p ops p' →
  curr_prec p' ≤ prec →
  ∀ n lhs_prec lhs e q,
    lhs_prec ≤ prec →
    parse_bin_op_rhs n lhs_prec lhs p = Returns (Some e, q) →
    subexpr (left_tree lhs ops) e.
Proof.
  intros Hch Hend.
  induction Hch as [p|p rhs p1 rest p' Hp [nb Hb] Hch IH];
    intros n lhs_prec lhs e q Hprec Hrun.
  - by eapply bin_op_rhs_contains_lhs.
  - pose proof (op_chain_head_le _ _ _ _ Hch Hend) as Hp1.
    destruct n as [|n]; [done|].
    apply bin_op_rhs_turn in Hrun
      as [(? & _)|(_ & rhs0 & q2 & Hrhs &
            [(_ & Hrun)|(? & _)])]; [lia| |].
    + pose proof (parse_primary_agree _ _ _ _ _ Hb Hrhs). simplify_eq.
      exact (IH Hend _ _ _ _ _ Hprec Hrun).
    + pose proof (parse_primary_agree _ _ _ _ _ Hb Hrhs). simplify_eq. lia.
Qed.

End PrecedenceClimbing.

(** C1: a '+' followed by a '*' operand.  With the precedence table
    ('<' 10, '+' and '-' 20, '*' 40, any other character -1) the product
    binds tighter: the operand [b] after the '+' and the factors after it
    form a tree with '*' at its root, and that tree is the right child of
    the '+' node.  This holds wherever the operator loop stands at the
    '+' (the node is part of the tree the loop returns, whatever
    follows), and for the whole expression [a + b * c ...] that ends at a
    token that is no operator the tree returned is exactly that node. *)
Theorem plus_times_binds_tighter p1 b p2 ops p3 :
  curr_token p1 = chr "+" →
  parses_primary (get_next_token p1) b p2 →
  curr_token p2 = chr "*" →
  op_chain 40 p2 ops p3 →
  curr_prec p3 < 40 →
  (get_binary_precedence (chr "<") = 10 ∧
   get_binary_precedence (chr "+") = 20 ∧
   get_binary_precedence (chr "-") = 20 ∧
   get_binary_precedence (chr "*") = 40 ∧
   ∀ op, op ≠ chr "<" → op ≠ chr "+" → op ≠ chr "-" → op ≠ chr "*" →
         get_binary_precedence op = -1) ∧
  (∃ l r, left_tree b ops = BinaryExpr (chr "*") l r) ∧
  (∀ n lhs_prec lhs e p',
     lhs_prec ≤ 20 →
     parse_bin_op_rhs n lhs_prec lhs p1 = Returns (Some e, p') →
     subexpr (BinaryExpr (chr "+") lhs (left_tree b ops)) e) ∧
  (∀ p a,
     parses_primary p a p1 →
     curr_prec p3 < 0 →
     ∃ N, ∀ n, (N ≤ n)%nat →
       parse_expr n p =
       Returns (Some (BinaryExpr (chr "+") a (left_tree b ops)), p3)).
Proof.
  intros Hplus Hb Htimes Hch Hend.
  assert (curr_prec p1 = 20) as Hp1 by (unfold curr_prec; by rewrite Hplus).
  assert (curr_prec p2 = 40) as Hp2 by (unfold curr_prec; by rewrite Htimes).
  split; [apply precedence_table|]. split; [|split].
  - eapply product_tree; [done|]. intros ->. inversion Hch; subst. lia.
  - intros n lhs_prec lhs e p' Hprec Hrun.
    by eapply plus_takes_product.
  - intros p a [na Ha] Hstop. destruct Hb as [nb Hb].
    destruct (bin_op_rhs_chain 40 21 p2 ops p3 Hch ltac:(lia) ltac:(lia) b)
      as [N HN].
    exists (S (S (S (na `max` (nb `max` N))))). intros n Hn.
    eapply parse_expr_fuel; [|exact Hn].
    rewrite (parse_expr_S _ p a p1)
      by (eapply parse_primary_fuel; [done|lia]).
    rewrite (bin_op_rhs_regroup _ 0 a p1 b p2 (left_tree b ops) p3);
      [ | lia | eapply parse_primary_fuel; [done|lia] | lia
        | rewrite Hp1; eapply parse_bin_op_rhs_fuel; [exact HN|lia] ].
    rewrite Hplus. apply bin_op_rhs_stop. lia.
Qed.

Lemma plus_times_binds_tighter_witness :
  (get_binary_precedence (chr "<") = 10 ∧
   get_binary_precedence (chr "+") = 20 ∧
   get_binary_precedence (chr "-") = 20 ∧
   get_binary_precedence (chr "*") = 40 ∧
   ∀ op, op ≠ chr "<" → op ≠ chr "+" → op ≠ chr "-" → op ≠ chr "*" →
         get_binary_precedence op = -1) ∧
  (∃ l r, left_tree (NumLiteralExpr 2) [(chr "*", NumLiteralExpr 3)] =
          BinaryExpr (chr "*") l r) ∧
  (∀ n lhs_prec lhs e p',
     lhs_prec ≤ 20 →
     parse_bin_op_rhs n lhs_prec lhs
       (parser_at (chr "+") (chr "2") "*3" "" 1) = Returns (Some e, p') →
     subexpr (BinaryExpr (chr "+") lhs
                (BinaryExpr (chr "*") (NumLiteralExpr 2) (NumLiteralExpr 3)))
       e) ∧
  (∀ p a,
     parses_primary p a (parser_at (chr "+") (chr "2") "*3" "" 1) →
     curr_prec (parser_at TOK_EOF EOF "" "" 3) < 0 →
     ∃ N, ∀ n, (N ≤ n)%nat →
       parse_expr n p =
       Returns (Some (BinaryExpr (chr "+") a
                        (BinaryExpr (chr "*") (NumLiteralExpr 2)
                           (NumLiteralExpr 3))),
                parser_at TOK_EOF EOF "" "" 3)).
Proof.
  apply (plus_times_binds_tighter
           (parser_at (chr "+") (chr "2") "*3" "" 1)
           (NumLiteralExpr 2) (parser_at (chr "*") (chr "3") "" "" 2)
           [(chr "*", NumLiteralExpr 3)] (parser_at TOK_EOF EOF "" "" 3)).
  - reflexivity.
  - exists 3%nat. vm_compute. reflexivity.
  - reflexivity.
  - apply (op_chain_cons 40 (parser_at (chr "*") (chr "3") "" "" 2)
             (NumLiteralExpr 3) (parser_at TOK_EOF EOF "" "" 3)).
    + reflexivity.
    + exists 3%nat. vm_compute. reflexivity.
    + apply op_chain_nil.
  - vm_compute. reflexivity.
Defined.

(** The specification's example: "1+2*3". *)
Example parse_1_plus_2_times_3 n :
  parse_expr (5 + n) (parser_on "1+2*3") =
  Returns (Some (BinaryExpr (chr "+") (NumLiteralExpr 1)
                   (BinaryExpr (chr "*") (NumLiteralExpr 2)
                      (NumLiteralExpr 3))),
           parser_at TOK_EOF EOF "" "" 3).
Proof.
  eapply parse_expr_fuel; [|apply (Nat.le_add_r 5 n)].
  vm_compute. reflexivity.
Qed.

(** C2: a chain of binary operators of equal precedence is grouped to the
    left, [((a op1 b) op2 c) ...].  This holds wherever the operator loop
    stands at such a chain that no tighter operator follows (the left
    tree is part of the tree the loop returns), and for the whole
    expression that ends at a token that is no operator the tree returned
    is exactly the left tree.  In [parse_bin_op_rhs] an operand followed
    by an operator that does not bind strictly tighter (equal precedence
    included) is combined as it is, with no recursive call. *)
Theorem equal_precedence_left_assoc prec p ops p' :
  op_chain prec p ops p' →
  curr_prec p' ≤ prec →
  (∀ n lhs_prec lhs e q,
     lhs_prec ≤ prec →
     parse_bin_op_rhs n lhs_prec lhs p = Returns (Some e, q) →
     subexpr (left_tree lhs ops) e) ∧
  (∀ p0 a,
     parses_primary p0 a p →
     0 ≤ prec →
     curr_prec p' < 0 →
     ∃ N, ∀ n, (N ≤ n)%nat →
       parse_expr n p0 = Returns (Some (left_tree a ops), p')) ∧
  (∀ n lhs_prec lhs q rhs q2,
     lhs_prec ≤ curr_prec q →
     parse_primary n (get_next_token q) = Returns (Some rhs, q2) →
     curr_prec q2 ≤ curr_prec q →
     parse_bin_op_rhs (S n) lhs_prec lhs q =
     parse_bin_op_rhs n lhs_prec
       (BinaryExpr (to_char (curr_token q)) lhs rhs) q2).
Proof.
  intros Hch Hend. split; [|split].
  - by apply (chain_folds_left prec p ops p').
  - intros p0 a [na Ha] Hprec Hstop.
    destruct (bin_op_rhs_chain prec 0 p ops p' Hch Hprec Hstop a) as [N HN].
    exists (S (na `max` N)). intros n Hn.
    eapply parse_expr_fuel; [|exact Hn].
    rewrite (parse_expr_S _ p0 a p)
      by (eapply parse_primary_fuel; [done|lia]).
    eapply parse_bin_op_rhs_fuel; [exact HN|lia].
  - intros. by apply bin_op_rhs_left.
Qed.

Lemma equal_precedence_left_assoc_witness :
  (∀ n lhs_prec lhs e q,
     lhs_prec ≤ 20 →
     parse_bin_op_rhs n lhs_prec lhs
       (parser_at (chr "-") (chr "2") "-3" "" 1) = Returns (Some e, q) →
     subexpr (BinaryExpr (chr "-")
                (BinaryExpr (chr "-") lhs (NumLiteralExpr 2))
                (NumLiteralExpr 3)) e) ∧
  (∀ p0 a,
     parses_primary p0 a (parser_at (chr "-") (chr "2") "-3" "" 1) →
     0 ≤ 20 →
     curr_prec (parser_at TOK_EOF EOF "" "" 3) < 0 →
     ∃ N, ∀ n, (N ≤ n)%nat →
       parse_expr n p0 =
       Returns (Some (BinaryExpr (chr "-")
                        (BinaryExpr (chr "-") a (NumLiteralExpr 2))
                        (NumLiteralExpr 3)),
                parser_at TOK_EOF EOF "" "" 3)) ∧
  (∀ n lhs_prec lhs q rhs q2,
     lhs_prec ≤ curr_prec q →
     parse_primary n (get_next_token q) = Returns (Some rhs, q2) →
     curr_prec q2 ≤ curr_prec q →
     parse_bin_op_rhs (S n) lhs_prec lhs q =
     parse_bin_op_rhs n lhs_prec
       (BinaryExpr (to_char (curr_token q)) lhs rhs) q2).
Proof.
  apply (equal_precedence_left_assoc 20
           (parser_at (chr "-") (chr "2") "-3" "" 1)
           [(chr "-", NumLiteralExpr 2); (chr "-", NumLiteralExpr 3)]
           (parser_at TOK_EOF EOF "" "" 3)).
  - apply (op_chain_cons 20 (parser_at (chr "-") (chr "2") "-3" "" 1)
             (NumLiteralExpr 2) (parser_at (chr "-") (chr "3") "" "" 2)).
    + reflexivity.
    + exists 3%nat. vm_compute. reflexivity.
    + apply (op_chain_cons 20 (parser_at (chr "-") (chr "3") "" "" 2)
               (NumLiteralExpr 3) (parser_at TOK_EOF EOF "" "" 3)).
      * reflexivity.
      * exists 3%nat. vm_compute. reflexivity.
      * apply op_chain_nil.
  - change (-1 ≤ 20). lia.
Defined.

(** The specification's example: "1-2-3". *)
Example parse_1_minus_2_minus_3 n :
  parse_expr (5 + n) (parser_on "1-2-3") =
  Returns (Some (BinaryExpr (chr "-")
                   (BinaryExpr (chr "-") (NumLiteralExpr 1)
                      (NumLiteralExpr 2))
                   (NumLiteralExpr 3)),
           parser_at TOK_EOF EOF "" "" 3).
Proof.
  eapply parse_expr_fuel; [|apply (Nat.le_add_r 5 n)].
  vm_compute. reflexivity.
Qed.

Section Calls.

(** After an argument the loop of [parse_identifier] tests for ')' and
    for ',' and goes round without reading the next token: the next
    argument is parsed at the comma itself. *)
Lemma args_loop_fails_at_comma n args p arg p1 k :
  parse_expr n p = Returns (Some arg, p1) →
  curr_token p1 = chr "," →
  (n `max` 3 ≤ k)%nat →
  parse_identifier_args (S k) args p =
  Returns (None, log_error "Unexpected token with id 44" p1).
Proof.
  intros Harg Hcomma Hk.
  cbn -[get_next_token pretty].
  rewrite (parse_expr_fuel n k p _ Harg) by lia.
  cbn -[get_next_token pretty]. rewrite Hcomma.
  destruct k as [|[|[|k]]]; [lia..|].
  cbn -[get_next_token pretty]. rewrite Hcomma. reflexivity.
Qed.

Lemma call_without_arguments n :
  parse_identifier (2 + n) (parser_on "f()") =
  Returns (Some (CallExpr "f" []), parser_at TOK_EOF EOF "" "f" 69).
Proof.
  eapply parse_identifier_fuel; [|apply (Nat.le_add_r 2 n)].
  vm_compute. reflexivity.
Qed.

Lemma call_with_one_argument n :
  parse_identifier (8 + n) (parser_on "f(1+x)") =
  Returns (Some call_f_1_plus_x, parser_at TOK_EOF EOF "" "x" 1).
Proof.
  eapply parse_identifier_fuel; [|apply (Nat.le_add_r 8 n)].
  vm_compute. reflexivity.
Qed.

End Calls.

(** C3: the code at "f(1, 2)".  The first argument is parsed, the comma
    is seen and not consumed, and the second turn of the loop fails on
    it: [parse_identifier] returns a null node and logs the unexpected
    token 44 (the comma), whatever fuel it is run with. *)
Theorem two_argument_call_is_rejected n :
  parse_identifier (7 + n) (parser_on "f(1, 2)") =
  Returns (None,
           log_error "Unexpected token with id 44"
             (parser_at (chr ",") (chr " ") "2)" "f" 1)).
Proof.
  eapply parse_identifier_fuel; [|apply (Nat.le_add_r 7 n)].
  vm_compute. reflexivity.
Qed.

Section Prototypes.

Lemma early_args_loop_spins fuel : ∀ args p,
  curr_token p = TOK_IDENTIFIER →
  Early.parse_prototype_args fuel args p = OutOfFuel.
Proof.
  induction fuel as [|fuel IH]; intros args p Hp; simpl; rewrite Hp; simpl.
  - done.
  - by apply IH.
Qed.

(** The parser-only revision does not return from a prototype with a
    parameter. *)
Lemma early_prototype_never_returns fuel p :
  curr_token p = TOK_IDENTIFIER →
  curr_token (get_next_token p) = chr "(" →
  curr_token (get_next_token (get_next_token p)) = TOK_IDENTIFIER →
  Early.parse_prototype fuel p = OutOfFuel.
Proof.
  intros H1 H2 H3. unfold Early.parse_prototype, parse_prototype_with.
  rewrite H1, H2. simpl. by rewrite early_args_loop_spins.
Qed.

Lemma prototype_args_run p names p' :
  ident_run p names p' →
  ∀ args fuel, (length names ≤ fuel)%nat →
    parse_prototype_args fuel args p = Returns (args ++ names, p').
Proof.
  induction 1 as [p Hp|p names p' Hp Hrun IH]; intros args fuel Hfuel.
  - apply Z.eqb_neq in Hp. destruct fuel; simpl; rewrite Hp;
      by rewrite app_nil_r.
  - simpl in Hfuel. destruct fuel as [|fuel]; [lia|].
    simpl. rewrite Hp. simpl. rewrite IH by lia. by rewrite <-app_assoc.
Qed.

(** The later revision on [name ( p1 ... pN )]: it returns, having read
    past every parameter, with the name and the parameters in order;
    nothing separates the parameters and equal names are kept. *)
Lemma parse_prototype_returns p names p' fuel :
  curr_token p = TOK_IDENTIFIER →
  curr_token (get_next_token p) = chr "(" →
  ident_run (get_next_token (get_next_token p)) names p' →
  curr_token p' = chr ")" →
  (length names ≤ fuel)%nat →
  parse_prototype fuel p =
  Returns (Some (mkProto (identifier_string (lexer p)) names),
           get_next_token p').
Proof.
  intros H1 H2 Hrun H3 Hfuel. unfold parse_prototype, parse_prototype_with.
  rewrite H1, H2. simpl.
  rewrite (prototype_args_run _ _ _ Hrun) by done. simpl.
  by rewrite H3.
Qed.

Example later_prototype_two_parameters :
  parse_prototype 2 (parser_on "foo(a a)") =
  Returns (Some (mkProto "foo" ["a"; "a"]), parser_at TOK_EOF EOF "" "a" 69).
Proof. vm_compute. reflexivity. Qed.

End Prototypes.

(** C6: the code of the parser-only revision at "foo(a)".  The loop over
    the parameters captures the name and never reads the next token, so
    [parse_prototype] does not return: every amount of fuel runs out. *)
Theorem early_prototype_loops_on_parameter fuel :
  Early.parse_prototype fuel (parser_on "foo(a)") = OutOfFuel.
Proof. by apply early_prototype_never_returns. Qed.

(** * The lowering pass *)

Section Lowering.

Lemma same_module_refl st : same_module st st.
Proof. by repeat split. Qed.

Lemma same_module_trans st1 st2 st3 :
  same_module st1 st2 → same_module st2 st3 → same_module st1 st3.
Proof.
  intros (?&?&?&?&Ha&Hb) (?&?&?&?&Ha'&Hb').
  split_and!; try congruence.
  intros x. by rewrite Hb', Hb.
Qed.

Lemma same_module_log msg st : same_module st (log_error_val msg st).2.
Proof. by repeat split. Qed.

Lemma same_module_emit i st : same_module st (emit i st).2.
Proof.
  repeat split; simpl; try done.
  - unfold place. destruct (insert_point st) as [[h b]|]; [|done].
    apply dom_alter_L.
  - intros h. unfold function_args, place. simpl.
    destruct (insert_point st) as [[h' b]|]; [|done].
    rewrite lookup_alter. case_decide; [subst|done].
    by destruct (functions st !! h).
Qed.

Lemma same_module_emit_value i st : same_module st (emit_value i st).2.
Proof. apply (same_module_emit i st). Qed.

Lemma same_module_named_values_at name st :
  same_module st (named_values_at name st).2.
Proof.
  unfold named_values_at.
  destruct (named_values st !! name) as [v|] eqn:Hn;
    [apply same_module_refl|].
  repeat split; simpl; try done; unfold bound; simpl; intros [v Hv].
  - destruct (decide (name = x)) as [->|Hne].
    + by rewrite lookup_insert_eq in Hv.
    + rewrite lookup_insert_ne in Hv by done. eauto.
  - exists v. rewrite lookup_insert_ne; [done|]. intros ->. congruence.
Qed.

(** Lowering an expression creates and erases no function and binds no
    name. *)
Lemma codegen_same_module e : ∀ st, same_module st (codegen e st).2.
Proof.
  induction e as [v|name|op l IHl r IHr|callee args]; intros st; simpl.
  - apply same_module_refl.
  - pose proof (same_module_named_values_at name st) as Hn.
    destruct (named_values_at name st) as [[v|] st1]; simpl in *; [done|].
    eapply same_module_trans; [exact Hn|apply same_module_log].
  - pose proof (IHl st) as Hl. destruct (codegen l st) as [lv st1].
    pose proof (IHr st1) as Hr. destruct (codegen r st1) as [rv st2].
    simpl in *.
    assert (same_module st st2) as H2 by by eapply same_module_trans.
    destruct lv as [lv|], rv as [rv|]; simpl; try done.
    repeat case_match; simpl;
      try (eapply same_module_trans;
           [exact H2|first [apply same_module_emit_value
                           |apply same_module_log]]).
    eapply same_module_trans; [exact H2|].
    eapply same_module_trans;
      [apply (same_module_emit (FCmpULT lv rv))|].
    exact (same_module_emit_value (UIToFP (Result (length (emitted st2))))
             (emit (FCmpULT lv rv) st2).2).
  - destruct (getFunction callee st) as [h|]; [|apply same_module_log].
    case_match; [apply same_module_log|apply same_module_emit_value].
Qed.

Lemma lowered_at_same_module e st e' st' :
  lowered_at e st e' st' → same_module st st'.
Proof.
  induction 1 as [e st|op l r st e' st' _ IH|op l r st e' st' _ IH].
  - apply same_module_refl.
  - exact IH.
  - eapply same_module_trans; [apply (codegen_same_module l)|exact IH].
Qed.

Lemma bind_args_bound names : ∀ h i nv x,
  (∃ v, bind_args h i names nv !! x = Some (Some v)) ↔
  x ∈ names ∨ ∃ v, nv !! x = Some (Some v).
Proof.
  induction names as [|n names IH]; intros h i nv x; simpl.
  - split; [eauto|]. intros [Hx|?]; [|done]. by apply elem_of_nil in Hx.
  - rewrite IH, elem_of_cons. split.
    + intros [?|[v Hv]]; [by auto|].
      destruct (decide (n = x)) as [->|Hne]; [by auto|].
      rewrite lookup_insert_ne in Hv by done. eauto.
    + intros [[->|?]|[v Hv]]; [|by auto|].
      * right. rewrite lookup_insert_eq. eauto.
      * destruct (decide (n = x)) as [->|Hne].
        -- right. rewrite lookup_insert_eq. eauto.
        -- right. rewrite lookup_insert_ne by done. eauto.
Qed.

Lemma function_args_BasicBlock_Create h h' st :
  function_args h' (BasicBlock_Create h st) = function_args h' st.
Proof.
  unfold BasicBlock_Create, function_args.
  destruct (functions st !! h) as [f|] eqn:Hf; [simpl|done].
  destruct (decide (h = h')) as [->|Hne].
  - by rewrite lookup_insert_eq, Hf.
  - by rewrite lookup_insert_ne.
Qed.

(** On entry the scope table holds the formals of the function and
    nothing of what it held before. *)
Lemma enter_bound h st x :
  bound x (AstFuncDef_enter h st) ↔ x ∈ function_args h st.
Proof.
  unfold AstFuncDef_enter, bound. simpl.
  rewrite bind_args_bound, function_args_BasicBlock_Create.
  split; [intros [?|[v Hv]]; [done|]|by auto].
  by rewrite lookup_empty in Hv.
Qed.

Lemma codegen_var_bound x st v :
  named_values st !! x = Some (Some v) →
  codegen (VarExpr x) st = (Some v, st).
Proof. intros H. simpl. unfold named_values_at. by rewrite H. Qed.

Lemma codegen_var_unbound x st :
  ¬ bound x st →
  (codegen (VarExpr x) st).1 = None ∧
  cg_stderr (codegen (VarExpr x) st).2 =
    cg_stderr st ++ ["Error: Attempted access of undefined variable " +:+ x].
Proof.
  intros Hx. simpl. unfold named_values_at.
  destruct (named_values st !! x) as [[v|]|] eqn:Hn; simpl; [|done..].
  destruct Hx. by exists v.
Qed.

Lemma codegen_stderr_grows e :
  ∀ st, cg_stderr st `prefix_of` cg_stderr (codegen e st).2.
Proof.
  induction e as [value|name|op l IHl r IHr|callee args]; intros st; simpl.
  - done.
  - unfold named_values_at.
    destruct (named_values st !! name) as [[v|]|]; simpl;
      first done; by apply prefix_app_r.
  - specialize (IHl st). destruct (codegen l st) as [L st1]. simpl in IHl.
    specialize (IHr st1). destruct (codegen r st1) as [R st2]. simpl in IHr.
    assert (cg_stderr st `prefix_of` cg_stderr st2) as Hst
      by (by etrans).
    destruct L as [L|], R as [R|]; simpl; try done.
    repeat case_match; simpl; try done. by apply prefix_app_r.
  - repeat case_match; simpl; first [done | by apply prefix_app_r].
Qed.

(** A variable reference that fails anywhere in an expression makes the
    lowering of the expression fail, and its diagnostic stays in the
    log. *)
Lemma lowered_at_unbound e st x st' :
  lowered_at e st (VarExpr x) st' → ¬ bound x st' →
  (codegen e st).1 = None ∧
  ("Error: Attempted access of undefined variable " +:+ x)
    ∈ cg_stderr (codegen e st).2.
Proof.
  intros Hlow. remember (VarExpr x) as e' eqn:He'.
  induction Hlow as [e st|op l r st e' st' _ IH|op l r st e' st' _ IH];
    intros Hx; subst.
  - destruct (codegen_var_unbound x st Hx) as [-> ->]. split; first done.
    apply elem_of_app. right. by apply list_elem_of_singleton.
  - destruct (IH eq_refl Hx) as [HL Hin]. simpl.
    destruct (codegen l st) as [L st1]. simpl in HL, Hin. subst L.
    pose proof (codegen_stderr_grows r st1) as Hpre.
    destruct (codegen r st1) as [R st2]. simpl in *.
    split; first done. by eapply elem_of_prefix.
  - destruct (IH eq_refl Hx) as [HR Hin]. simpl.
    destruct (codegen l st) as [L st1]. simpl in HR, Hin.
    destruct (codegen r st1) as [R st2]. simpl in *. subst R.
    by destruct L.
Qed.

Lemma resolve_created d st h st1 :
  getFunction (proto_name (prototype d)) st = None →
  AstFuncDef_resolve d st = (Some h, st1) →
  function_args h st1 = arg_names (prototype d).
Proof.
  unfold AstFuncDef_resolve. intros ->.
  unfold AstPrototype_codegen, Function_Create, Function_empty,
    function_args. simpl. rewrite lookup_insert_eq. simpl.
  intros ?; simplify_eq/=. by rewrite lookup_insert_eq.
Qed.

End Lowering.

Section Definitions.


(** What [AstFuncDef::codegen] does once the guards are passed: it
    returns the function, whether or not the body was lowered. *)
Lemma funcdef_after_guards d st h st1 :
  AstFuncDef_resolve d st = (Some h, st1) →
  AstFuncDef_codegen d st =
  (Some h,
   let r := codegen (body d) (AstFuncDef_enter h st1) in
   (emit (Ret r.1)
      (match r.1 with
       | None => eraseFromParent h r.2
       | Some _ => r.2
       end)).2).
Proof.
  intros Hres. unfold AstFuncDef_codegen. rewrite Hres.
  by destruct (codegen (body d) (AstFuncDef_enter h st1)) as [[v|] st3].
Qed.

(** A body that fails to lower: the function is erased, and the return
    is emitted and the function handed back all the same. *)
Lemma funcdef_body_fails d st h st1 :
  AstFuncDef_resolve d st = (Some h, st1) →
  (codegen (body d) (AstFuncDef_enter h st1)).1 = None →
  ∃ st', AstFuncDef_codegen d st = (Some h, st') ∧
         functions st' !! h = None ∧
         last (emitted st') = Some (Ret None).
Proof.
  intros Hres Hbody. rewrite (funcdef_after_guards _ _ _ _ Hres).
  eexists; split; [done|]. simpl. rewrite Hbody. simpl. split.
  - unfold place. destruct (insert_point _) as [[h' b]|]; simpl.
    + rewrite lookup_alter. case_decide; [subst|];
        by rewrite ?lookup_delete_eq, ?lookup_delete_ne.
    + apply lookup_delete_eq.
  - apply last_snoc.
Qed.




Example extern_then_def :
  AstFuncDef_codegen def_foo_sum ir_extern_foo =
  (Some 0%nat,
   {| functions :=
        {[ 0%nat := mkFunction "foo" ["a"; "b"]
                      [[FAdd (Argument 0 0) (Argument 0 1);
                        Ret (Some (Result 0))]] ]};
      symtab := {[ "foo" := 0%nat ]};
      next_handle := 1;
      insert_point := Some (0%nat, 0%nat);
      named_values := {[ "a" := Some (Argument 0 0);
                         "b" := Some (Argument 0 1) ]};
      emitted := [FAdd (Argument 0 0) (Argument 0 1);
                  Ret (Some (Result 0))];
      cg_stderr := [] |}).
Proof. vm_compute. reflexivity. Qed.

End Definitions.

(** C8, as the code has it: the names in scope are the formals of the
    function the definition resolved, not the parameter names of the
    definition.  After [extern foo(a b)], lowering [def foo(x y) x]
    reuses the declared function: its parameter [x] is undefined in the
    body (the definition logs that diagnostic), and [a], which is no
    parameter of the definition, resolves. *)
Lemma scope_ignores_definition_parameters :
  AstFuncDef_resolve def_foo_xy ir_extern_foo = (Some 0%nat, ir_extern_foo) ∧
  lowered_at (body def_foo_xy) (AstFuncDef_enter 0 ir_extern_foo)
    (VarExpr "x") (AstFuncDef_enter 0 ir_extern_foo) ∧
  ¬ (is_Some (codegen (VarExpr "x") (AstFuncDef_enter 0 ir_extern_foo)).1 ↔
     "x" ∈ arg_names (prototype def_foo_xy)) ∧
  ¬ (is_Some (codegen (VarExpr "a") (AstFuncDef_enter 0 ir_extern_foo)).1 ↔
     "a" ∈ arg_names (prototype def_foo_xy)) ∧
  (AstFuncDef_codegen def_foo_xy ir_extern_foo).1 = Some 0%nat ∧
  cg_stderr (AstFuncDef_codegen def_foo_xy ir_extern_foo).2 =
    ["Error: Attempted access of undefined variable x"].
Proof.
  split_and!; try (vm_compute; reflexivity).
  - apply lowered_here.
  - intros [_ H].
    assert ("x" ∈ arg_names (prototype def_foo_xy)) as Hin
      by (apply list_elem_of_In; simpl; auto).
    destruct (H Hin) as [v Hv]. vm_compute in Hv. discriminate Hv.
  - intros [H _].
    assert (is_Some (codegen (VarExpr "a")
                       (AstFuncDef_enter 0 ir_extern_foo)).1) as Hs
      by (exists (Argument 0 0); vm_compute; reflexivity).
    apply H, list_elem_of_In in Hs. simpl in Hs.
    destruct Hs as [Hs|[Hs|[]]]; discriminate Hs.
Qed.

(** C8, amended: [AstFuncDef::codegen] lowers its body in a scope table
    that it has cleared and filled from the formals of the function it
    resolved.  Once the guards are passed the result is the function,
    with the body lowered from that table; whatever the table held
    before, a variable reference lowered anywhere in the body gives a
    value exactly when its name is one of those formals, a name that is
    none fails with the "undefined variable" diagnostic, and the table
    the definition leaves holds exactly the formals.  The formals are the
    parameter names of the definition when the definition creates the
    function. *)
Theorem scope_is_the_function_formals d st h st1 x st2 :
  AstFuncDef_resolve d st = (Some h, st1) →
  lowered_at (body d) (AstFuncDef_enter h st1) (VarExpr x) st2 →
  AstFuncDef_codegen d st =
    (Some h,
     let r := codegen (body d) (AstFuncDef_enter h st1) in
     (emit (Ret r.1)
        (match r.1 with
         | None => eraseFromParent h r.2
         | Some _ => r.2
         end)).2) ∧
  (is_Some (codegen (VarExpr x) st2).1 ↔ x ∈ function_args h st1) ∧
  ((codegen (VarExpr x) st2).1 = None →
   cg_stderr (codegen (VarExpr x) st2).2 =
     cg_stderr st2 ++
     ["Error: Attempted access of undefined variable " +:+ x]) ∧
  (x ∉ function_args h st1 →
   (codegen (body d) (AstFuncDef_enter h st1)).1 = None ∧
   ("Error: Attempted access of undefined variable " +:+ x)
     ∈ cg_stderr (AstFuncDef_codegen d st).2) ∧
  (∀ y, bound y (AstFuncDef_codegen d st).2 ↔ y ∈ function_args h st1) ∧
  (getFunction (proto_name (prototype d)) st = None →
   function_args h st1 = arg_names (prototype d)).
Proof.
  intros Hres Hlow.
  pose proof (lowered_at_same_module _ _ _ _ Hlow) as (_&_&_&_&_&Hb2).
  pose proof (codegen_same_module (body d) (AstFuncDef_enter h st1))
    as (_&_&_&_&_&Hb).
  assert (bound x st2 ↔ x ∈ function_args h st1) as Hx
    by (by rewrite Hb2, enter_bound).
  split_and!.
  - by apply funcdef_after_guards.
  - rewrite <-Hx. split.
    + intros [v Hv]. simpl in Hv. unfold named_values_at in Hv.
      destruct (named_values st2 !! x) as [[w|]|] eqn:Hn; simpl in Hv;
        try done. by exists w.
    + intros [v Hv]. rewrite (codegen_var_bound _ _ _ Hv). by eexists.
  - intros Hnone. apply codegen_var_unbound. intros [v Hv].
    rewrite (codegen_var_bound _ _ _ Hv) in Hnone. done.
  - intros Hnot.
    destruct (lowered_at_unbound _ _ _ _ Hlow) as [Hfail Hin];
      first by rewrite Hx.
    split; first done.
    rewrite (funcdef_after_guards _ _ _ _ Hres). simpl.
    by destruct (codegen (body d) (AstFuncDef_enter h st1)) as [[v|] st3].
  - intros y. rewrite (funcdef_after_guards _ _ _ _ Hres). simpl.
    rewrite <-enter_bound, <-Hb. unfold bound.
    by destruct (codegen (body d) (AstFuncDef_enter h st1)) as [[v|] st3].
  - intros Hnone. by eapply resolve_created.
Qed.

Lemma scope_is_the_function_formals_witness :
  AstFuncDef_codegen def_bar_uses_a ir_def_foo_id =
    (Some 1%nat,
     let r := codegen (body def_bar_uses_a)
                (AstFuncDef_enter 1 ir_bar_created) in
     (emit (Ret r.1)
        (match r.1 with
         | None => eraseFromParent 1 r.2
         | Some _ => r.2
         end)).2) ∧
  (is_Some (codegen (VarExpr "a")
              (codegen (VarExpr "b")
                 (AstFuncDef_enter 1 ir_bar_created)).2).1 ↔
   "a" ∈ function_args 1 ir_bar_created) ∧
  ((codegen (VarExpr "a")
      (codegen (VarExpr "b") (AstFuncDef_enter 1 ir_bar_created)).2).1
   = None →
   cg_stderr
     (codegen (VarExpr "a")
        (codegen (VarExpr "b") (AstFuncDef_enter 1 ir_bar_created)).2).2 =
     cg_stderr
       (codegen (VarExpr "b") (AstFuncDef_enter 1 ir_bar_created)).2 ++
     ["Error: Attempted access of undefined variable " +:+ "a"]) ∧
  ("a" ∉ function_args 1 ir_bar_created →
   (codegen (body def_bar_uses_a) (AstFuncDef_enter 1 ir_bar_created)).1
   = None ∧
   ("Error: Attempted access of undefined variable " +:+ "a")
     ∈ cg_stderr (AstFuncDef_codegen def_bar_uses_a ir_def_foo_id).2) ∧
  (∀ y, bound y (AstFuncDef_codegen def_bar_uses_a ir_def_foo_id).2 ↔
        y ∈ function_args 1 ir_bar_created) ∧
  (getFunction (proto_name (prototype def_bar_uses_a)) ir_def_foo_id = None →
   function_args 1 ir_bar_created = arg_names (prototype def_bar_uses_a)).
Proof.
  apply (scope_is_the_function_formals def_bar_uses_a ir_def_foo_id 1%nat
           ir_bar_created "a"
           (codegen (VarExpr "b") (AstFuncDef_enter 1 ir_bar_created)).2).
  - vm_compute. reflexivity.
  - apply lowered_right. apply lowered_here.
Defined.

(** At the witness the table held [a], bound for [foo], before [bar]
    was lowered; in the body of [bar] the parameter [b] resolves and [a]
    does not. *)
Example stale_binding_does_not_resolve :
  bound "a" ir_def_foo_id ∧
  (codegen (VarExpr "b") (AstFuncDef_enter 1 ir_bar_created)).1 =
    Some (Argument 1 0) ∧
  (codegen (VarExpr "a")
     (codegen (VarExpr "b") (AstFuncDef_enter 1 ir_bar_created)).2).1 = None ∧
  cg_stderr (AstFuncDef_codegen def_bar_uses_a ir_def_foo_id).2 =
    ["Error: Attempted access of undefined variable a"].
Proof.
  split_and!; try (vm_compute; reflexivity).
  exists (Argument 0 0). vm_compute. reflexivity.
Qed.

(** C4: the code at [def foo(a) b] in an empty module.  The body fails
    to lower (b is no parameter) and the function is erased from the
    module, but the method goes on: it asks the builder for a return of
    the null value and returns the function, not a null result. *)
Theorem body_failure_is_not_reported :
  ∃ st', AstFuncDef_codegen def_foo_unbound ir_init = (Some 0%nat, st') ∧
         functions st' = ∅ ∧ symtab st' = ∅ ∧
         emitted st' = [Ret None] ∧
         cg_stderr st' =
           ["Error: Attempted access of undefined variable b"].
Proof. eexists. split; [vm_compute; reflexivity|]. by vm_compute. Qed.



(** The scope of [foo] is gone when [bar] is lowered. *)
Example no_leak_between_functions :
  cg_stderr
    (AstFuncDef_codegen (mkFuncDef (mkProto "bar" ["b"]) (VarExpr "a"))
       ir_def_foo_id).2 =
  ["Error: Attempted access of undefined variable a"].
Proof. vm_compute. reflexivity. Qed.

Section CallLowering.

Lemma call_unknown_function callee args st :
  getFunction callee st = None →
  codegen (CallExpr callee args) st =
  log_error_val "Unknown function being called" st.
Proof. intros H. simpl. by rewrite H. Qed.

Lemma call_wrong_arity callee args st h :
  getFunction callee st = Some h →
  arg_size h st ≠ length args →
  codegen (CallExpr callee args) st =
  log_error_val "Wrong number of arguments provided in function call" st.
Proof.
  intros H Hn. simpl. rewrite H.
  apply Nat.eqb_neq in Hn. by rewrite Hn.
Qed.

(** With the callee found and the count right the call is emitted at
    once, on the argument nodes as they stand. *)
Lemma call_emitted callee args st h :
  getFunction callee st = Some h →
  arg_size h st = length args →
  codegen (CallExpr callee args) st =
  emit_value (Call h (map NodePtr args)) st.
Proof.
  intros H Hn. simpl. rewrite H.
  apply Nat.eqb_eq in Hn. by rewrite Hn.
Qed.

Lemma call_fails_iff callee args st :
  (codegen (CallExpr callee args) st).1 = None ↔
  getFunction callee st = None ∨
  ∃ h, getFunction callee st = Some h ∧ arg_size h st ≠ length args.
Proof.
  destruct (getFunction callee st) as [h|] eqn:Hget.
  - destruct (decide (arg_size h st = length args)) as [Hn|Hn].
    + rewrite (call_emitted _ _ _ _ Hget Hn). simpl.
      split; [done|]. intros [?|(h' & ? & ?)]; [done|]. by simplify_eq.
    + rewrite (call_wrong_arity _ _ _ _ Hget Hn). simpl.
      split; [|done]. intros _. right. by exists h.
  - rewrite (call_unknown_function _ _ _ Hget). simpl. by split; [left|].
Qed.

End CallLowering.

(** C7: the code at the call [f(1+x)] with [f(a)] declared and no [x]
    in scope.  The loop over the arguments pushes the argument node and
    does not lower it: the call is the only operation emitted, on the
    node itself; no addition is emitted before it, and the argument,
    which does not lower since [x] is unbound, is not noticed. *)
Theorem call_arguments_are_not_lowered :
  (codegen (BinaryExpr (chr "+") (NumLiteralExpr 1) (VarExpr "x"))
     ir_extern_f).1 = None ∧
  ∃ st',
    codegen call_f_1_plus_x ir_extern_f = (Some (Result 0), st') ∧
    emitted st' =
      [Call 0 [NodePtr (BinaryExpr (chr "+") (NumLiteralExpr 1)
                          (VarExpr "x"))]] ∧
    cg_stderr st' = [].
Proof.
  split; [by vm_compute|].
  eexists. split; [vm_compute; reflexivity|]. by vm_compute.
Qed.

(** * Further properties of the lexer *)

Section LexerRuns.

Local Ltac zbool :=
  unfold isspace, isalpha, isdigit, isalnum, in_number, in_comment, EOF,
    TOK_EOF, TOK_DEF, TOK_EXTERN, TOK_IDENTIFIER, TOK_NUMBER in *;
  repeat first [case Z.eqb_spec | case Z.leb_spec]; simpl;
  intros; try done; try lia.

Lemma isalpha_not_space c : isalpha c = true → isspace c = false.
Proof. zbool. Qed.

Lemma isdigit_not_space c : isdigit c = true → isspace c = false.
Proof. zbool. Qed.

Lemma isdigit_not_alpha c : isdigit c = true → isalpha c = false.
Proof. zbool. Qed.

Lemma ascii_of_char_to_char a : ascii_of_char (to_char (chr a)) = a.
Proof. destruct a as [[] [] [] [] [] [] [] []]; reflexivity. Qed.

Lemma append_nil t : "" +:+ t = t.
Proof. reflexivity. Qed.

Lemma append_String a s t : String a s +:+ t = String a (s +:+ t).
Proof. reflexivity. Qed.

Lemma push_back_append s c w :
  push_back s c +:+ w = s +:+ String (ascii_of_char c) w.
Proof.
  unfold push_back. induction s as [|b s IH]; [done|].
  by rewrite !append_String, IH.
Qed.

Lemma read_while_stop cond acc c inp :
  cond c = false → read_while cond acc c inp = (acc, c, inp).
Proof. intros H. destruct inp; simpl; by rewrite H. Qed.

(** The loop started at [c] is the loop started at the next character
    with [c] taken up. *)
Lemma read_while_first cond acc c inp :
  cond EOF = false → cond c = true →
  read_while cond (push_back acc c) (getchar inp).1 (getchar inp).2 =
  read_while cond acc c inp.
Proof.
  intros Heof Hc. destruct inp as [|b r]; simpl; rewrite Hc; [|done].
  by rewrite Heof.
Qed.

(** The loop over a run [w] of characters that satisfy the condition,
    ended by the input's end or by a character that does not. *)
Lemma read_while_run cond w :
  cond EOF = false →
  ∀ acc c rest,
    cond c = true →
    all_chars cond w = true →
    cond (getchar rest).1 = false →
    read_while cond acc c (w +:+ rest) =
    (acc +:+ String (ascii_of_char c) w, (getchar rest).1, (getchar rest).2).
Proof.
  intros Heof. induction w as [|a w IH]; intros acc c rest Hc Hw Hstop.
  - rewrite append_nil. destruct rest as [|b r]; simpl in *; rewrite Hc.
    + done.
    + by rewrite read_while_stop.
  - rewrite append_String. simpl in *. rewrite Hc.
    apply andb_true_iff in Hw as [Ha Hw].
    rewrite (IH _ _ _ Ha Hw Hstop).
    by rewrite push_back_append, ascii_of_char_to_char.
Qed.

(** What the loop leaves behind does not depend on what it collects. *)
Lemma read_while_acc cond inp : ∀ acc acc' c,
  (read_while cond acc c inp).1.2 = (read_while cond acc' c inp).1.2 ∧
  (read_while cond acc c inp).2 = (read_while cond acc' c inp).2.
Proof.
  induction inp as [|a r IH]; intros acc acc' c; simpl;
    destruct (cond c); simpl; auto.
Qed.

Lemma skip_space_step c a r :
  isspace c = true → skip_space c (String a r) = skip_space (to_char (chr a)) r.
Proof.
  intros Hc. unfold skip_space. simpl. rewrite Hc.
  pose proof (read_while_acc isspace r (push_back "" c) "" (to_char (chr a)))
    as [H1 H2].
  destruct (read_while isspace (push_back "" c) _ r) as [[? ?] ?],
           (read_while isspace "" _ r) as [[? ?] ?].
  simpl in *. by subst.
Qed.

Lemma skip_space_stop c inp : isspace c = false → skip_space c inp = (c, inp).
Proof. intros H. unfold skip_space. by rewrite read_while_stop. Qed.

Lemma get_token_rec_more n : ∀ m lx r,
  (n ≤ m)%nat → get_token_rec n lx = Some r → get_token_rec m lx = Some r.
Proof.
  induction n as [|n IH]; intros [|m] lx r Hle; try lia; simpl;
    repeat case_match; try done; intros; simplify_eq; eauto with lia.
Qed.

Lemma get_token_rec_enough fuel lx :
  (String.length (stdin lx) ≤ fuel)%nat →
  get_token_rec fuel lx = Some (get_token lx).
Proof.
  intros Hle. eapply get_token_rec_more; [exact Hle|apply get_token_unfold].
Qed.

(** [get_token] looks at [last_char] and the input through [skip_space]
    only. *)
Lemma get_token_rec_skip fuel lx lx' :
  skip_space (last_char lx) (stdin lx) = skip_space (last_char lx') (stdin lx') →
  identifier_string lx = identifier_string lx' →
  number_val lx = number_val lx' →
  get_token_rec fuel lx = get_token_rec fuel lx'.
Proof. intros H1 H2 H3. destruct fuel; simpl; by rewrite H1, H2, H3. Qed.

Lemma get_token_skip lx lx' :
  skip_space (last_char lx) (stdin lx) = skip_space (last_char lx') (stdin lx') →
  identifier_string lx = identifier_string lx' →
  number_val lx = number_val lx' →
  get_token lx = get_token lx'.
Proof.
  intros H1 H2 H3.
  pose proof (get_token_rec_skip
                (String.length (stdin lx) `max` String.length (stdin lx'))
                lx lx' H1 H2 H3) as H.
  rewrite !get_token_rec_enough in H by lia. by simplify_eq.
Qed.

Lemma skip_space_run ws : ∀ c rest,
  isspace c = true → all_chars isspace ws = true →
  skip_space c (ws +:+ rest) = skip_space (getchar rest).1 (getchar rest).2.
Proof.
  induction ws as [|a ws IH]; intros c rest Hc Hws.
  - rewrite append_nil. destruct rest as [|b r].
    + unfold skip_space. simpl. by rewrite Hc.
    + by apply skip_space_step.
  - rewrite append_String, skip_space_step by done.
    simpl in Hws. apply andb_true_iff in Hws as [Ha Hws]. by apply IH.
Qed.

Lemma skip_line_run body nl rest :
  all_chars in_comment body = true →
  in_comment (to_char (chr nl)) = false →
  skip_line (getchar (body +:+ String nl rest)).1
            (getchar (body +:+ String nl rest)).2 = (to_char (chr nl), rest).
Proof.
  intros Hbody Hnl. destruct body as [|a body].
  - rewrite append_nil. simpl. unfold skip_line. by rewrite read_while_stop.
  - rewrite append_String. simpl in *.
    apply andb_true_iff in Hbody as [Ha Hbody].
    unfold skip_line. by rewrite read_while_run.
Qed.

Lemma append_nil_r s : s +:+ "" = s.
Proof. induction s as [|a s IH]; [done|]. by rewrite append_String, IH. Qed.

Lemma skip_line_to_end body :
  all_chars in_comment body = true →
  skip_line (getchar body).1 (getchar body).2 = (EOF, "").
Proof.
  intros Hbody. destruct body as [|a body]; [done|]. simpl in *.
  apply andb_true_iff in Hbody as [Ha Hbody].
  unfold skip_line. rewrite <-(append_nil_r body). by rewrite read_while_run.
Qed.

Lemma read_while_measure cond inp : ∀ acc c,
  (String.length (read_while cond acc c inp).2 +
     (if ((read_while cond acc c inp).1.2 =? EOF)%Z then 0 else 1)
   ≤ String.length inp + (if (c =? EOF)%Z then 0 else 1))%nat.
Proof.
  induction inp as [|a r IH]; intros acc c; simpl.
  - destruct (cond c); simpl; lia.
  - destruct (cond c); simpl; [|lia].
    specialize (IH (push_back acc c) (to_char (chr a))).
    destruct (to_char (chr a) =? EOF); lia.
Qed.

Lemma getchar_measure inp :
  (String.length (getchar inp).2 +
     (if ((getchar inp).1 =? EOF)%Z then 0 else 1)
   ≤ String.length inp)%nat.
Proof. destruct inp as [|a r]; simpl; [lia|]. case_match; lia. Qed.

(** A call of [get_token] never gives characters back, and uses at least
    one up unless it returns the end of input. *)
Lemma get_token_rec_measure fuel : ∀ lx t lx',
  get_token_rec fuel lx = Some (t, lx') →
  (lexer_measure lx' ≤ lexer_measure lx)%nat ∧
  (t ≠ TOK_EOF → (lexer_measure lx' < lexer_measure lx)%nat).
Proof.
  unfold lexer_measure.
  induction fuel as [|fuel IH]; intros lx t lx'; simpl;
    pose proof (read_while_measure isspace (stdin lx) "" (last_char lx)) as Hsp;
    unfold skip_space;
    destruct (read_while isspace "" (last_char lx) (stdin lx))
      as [[? c] inp]; simpl in Hsp;
    (destruct (isalpha c) eqn:Halpha;
     [ pose proof (getchar_measure inp) as Hg;
       destruct (getchar inp) as [c1 inp1]; simpl in Hg;
       pose proof (read_while_measure isalnum inp1
                     (String (ascii_of_char c) "") c1) as Hw;
       destruct (read_while isalnum _ c1 inp1) as [[id c2] inp2];
       simpl in Hw; intros ?; simplify_eq/=;
       assert ((c =? EOF) = false) as Hc by zbool; rewrite Hc in Hsp; lia |]);
    (destruct (isdigit c) eqn:Hdigit;
     [ pose proof (getchar_measure inp) as Hg;
       destruct (getchar inp) as [c1 inp1]; simpl in Hg;
       pose proof (read_while_measure in_number inp1
                     (String (ascii_of_char c) "") c1) as Hw;
       destruct (read_while in_number _ c1 inp1) as [[id c2] inp2];
       simpl in Hw; intros ?; simplify_eq/=;
       assert ((c =? EOF) = false) as Hc by zbool; rewrite Hc in Hsp; lia |]);
    (destruct (c =? chr "#") eqn:Hhash;
     [ apply Z.eqb_eq in Hhash; subst c;
       pose proof (getchar_measure inp) as Hg;
       destruct (getchar inp) as [c1 inp1]; simpl in Hg;
       pose proof (read_while_measure in_comment inp1 "" c1) as Hl;
       unfold skip_line;
       destruct (read_while in_comment "" c1 inp1) as [[? c2] inp2];
       simpl in Hl, Hsp;
       destruct (c2 =? EOF) eqn:Hc2; simpl;
       [ intros ?; simplify_eq/=; rewrite Hc2; split; [lia|done]
       | pose proof (getchar_measure inp2) as Hg';
         destruct (getchar inp2) as [c3 inp3]; simpl in Hg';
         try done; intros H; apply IH in H; simpl in H; lia ] |]);
    (destruct (c =? EOF) eqn:Hc;
     [ intros ?; simplify_eq/=; rewrite Hc in *; split; [lia|done] |]);
    pose proof (getchar_measure inp) as Hg;
    destruct (getchar inp) as [c1 inp1]; simpl in Hg;
    intros ?; simplify_eq/=; lia.
Qed.

(** The code [get_token] returns is never a white-space character, a
    letter, a digit or '#', and the globals change only with the token
    they belong to. *)
Lemma get_token_rec_code fuel : ∀ lx t lx',
  get_token_rec fuel lx = Some (t, lx') →
  (isspace t = false ∧ isalnum t = false ∧ t ≠ chr "#") ∧
  (t ≠ TOK_DEF → t ≠ TOK_EXTERN → t ≠ TOK_IDENTIFIER →
   identifier_string lx' = identifier_string lx) ∧
  (t ≠ TOK_NUMBER → number_val lx' = number_val lx).
Proof.
  induction fuel as [|fuel IH]; intros lx t lx'; simpl;
    unfold skip_space;
    pose proof (λ acc c, read_while_stop isspace acc c);
    destruct (read_while isspace "" (last_char lx) (stdin lx))
      as [[? c] inp] eqn:Hsp;
    assert (isspace c = false) as Hnsp
      by (destruct (isspace c) eqn:Hc; [|done]; exfalso;
          revert Hsp; clear -Hc;
          generalize (last_char lx) as c0, ""; induction (stdin lx) as [|a r IHr];
          intros c0 acc; simpl; destruct (isspace c0) eqn:Hc0;
          intros ?; simplify_eq/=; eauto; congruence);
    (destruct (isalpha c) eqn:Halpha;
     [ destruct (getchar inp) as [c1 inp1];
       destruct (read_while isalnum _ c1 inp1) as [[id c2] inp2];
       unfold string_to_keyword;
       destruct (String.eqb id "def"), (String.eqb id "extern");
       intros ?; simplify_eq/=; by split_and! |]);
    (destruct (isdigit c) eqn:Hdigit;
     [ destruct (getchar inp) as [c1 inp1];
       destruct (read_while in_number _ c1 inp1) as [[id c2] inp2];
       intros ?; simplify_eq/=; by split_and! |]);
    (destruct (c =? chr "#") eqn:Hhash;
     [ destruct (getchar inp) as [c1 inp1];
       destruct (skip_line c1 inp1) as [c2 inp2];
       destruct (c2 =? EOF) eqn:Hc2; simpl;
       [ intros ?; simplify_eq/=; by split_and!
       | destruct (getchar inp2) as [c3 inp3]; try done;
         intros Hrec; apply IH in Hrec; simpl in Hrec; exact Hrec ] |]);
    (destruct (c =? EOF) eqn:Hc;
     [ intros ?; simplify_eq/=; by split_and! |]);
    destruct (getchar inp) as [c1 inp1]; intros ?; simplify_eq/=;
    apply Z.eqb_neq in Hhash;
    (split_and!; [done| |done|done|done]);
    unfold isalnum; by rewrite Halpha, Hdigit.
Qed.

End LexerRuns.


(** X1: [get_token] always returns.  The only recursion is the tail call
    after a comment line, and each such call has read at least one
    character: run with any fuel not below the number of unread
    characters the function returns, and always the same result. *)
Theorem get_token_always_returns lx fuel :
  (String.length (stdin lx) ≤ fuel)%nat →
  get_token_rec fuel lx = Some (get_token lx).
Proof. apply get_token_rec_enough. Qed.

Lemma get_token_always_returns_witness :
  get_token_rec 40 (lexer_init "# one
# two
 x") = Some (get_token (lexer_init "# one
# two
 x")).
Proof.
  apply (get_token_always_returns (lexer_init "# one
# two
 x") 40).
  vm_compute. lia.
Defined.

(** X2: white space before a token is ignored.  With a white-space
    character in [last_char] and a run [ws] of white space next in the
    input, [get_token] returns what it returns started behind the run. *)
Theorem white_space_is_skipped c ws rest ids nv :
  isspace c = true →
  all_chars isspace ws = true →
  get_token {| last_char := c; stdin := ws +:+ rest;
               identifier_string := ids; number_val := nv |} =
  get_token {| last_char := (getchar rest).1; stdin := (getchar rest).2;
               identifier_string := ids; number_val := nv |}.
Proof.
  intros Hc Hws. apply get_token_skip; [|done..]. simpl.
  by apply skip_space_run.
Qed.

Lemma white_space_is_skipped_witness :
  get_token {| last_char := chr " "; stdin := "  	
 " +:+ "x+1";
               identifier_string := ""; number_val := 0 |} =
  get_token {| last_char := (getchar "x+1").1; stdin := (getchar "x+1").2;
               identifier_string := ""; number_val := 0 |}.
Proof.
  apply (white_space_is_skipped (chr " ") "  	
 " "x+1" "" 0).
  - reflexivity.
  - reflexivity.
Defined.

(** X3: a word.  With a letter in [last_char], followed in the input by
    a run [w] of letters and digits that ends at the end of the input or
    at another character, [get_token] takes the whole word: the word is
    left in [identifier_string], the character after it in [last_char],
    and the token is the keyword code for exactly "def" and "extern" and
    the identifier code for every other word. *)
Theorem word_token a w rest ids nv :
  isalpha (to_char (chr a)) = true →
  all_chars isalnum w = true →
  isalnum (getchar rest).1 = false →
  get_token {| last_char := to_char (chr a); stdin := w +:+ rest;
               identifier_string := ids; number_val := nv |} =
  (string_to_keyword (String a w),
   {| last_char := (getchar rest).1; stdin := (getchar rest).2;
      identifier_string := String a w; number_val := nv |}) ∧
  (string_to_keyword (String a w) = TOK_DEF ↔ String a w = "def") ∧
  (string_to_keyword (String a w) = TOK_EXTERN ↔ String a w = "extern") ∧
  (string_to_keyword (String a w) = TOK_IDENTIFIER ↔
   String a w ≠ "def" ∧ String a w ≠ "extern").
Proof.
  intros Ha Hw Hstop. split.
  - set (lx := {| last_char := to_char (chr a); stdin := w +:+ rest;
                  identifier_string := ids; number_val := nv |}).
    pose proof (get_token_rec_enough (S (String.length (stdin lx))) lx
                  ltac:(lia)) as Hu.
    simpl in Hu. rewrite skip_space_stop in Hu by by apply isalpha_not_space.
    rewrite Ha in Hu.
    pose proof (read_while_first isalnum "" (to_char (chr a)) (w +:+ rest)
                  eq_refl) as Hf.
    rewrite read_while_run in Hf; try done;
      try (unfold isalnum; by rewrite Ha).
    destruct (getchar (w +:+ rest)) as [c1 inp1]. simpl in Hf.
    unfold push_back in Hf. rewrite append_nil in Hf.
    rewrite Hf in Hu; [|unfold isalnum; by rewrite Ha].
    rewrite append_nil, ascii_of_char_to_char in Hu. by simplify_eq.
  - unfold string_to_keyword, TOK_DEF, TOK_EXTERN, TOK_IDENTIFIER.
    destruct (String.eqb_spec (String a w) "def") as [Hd|Hd];
      [rewrite Hd; intuition congruence|].
    destruct (String.eqb_spec (String a w) "extern") as [He|He];
      [rewrite He; intuition congruence|intuition congruence].
Qed.

Lemma word_token_witness :
  get_token {| last_char := to_char (chr "d"); stdin := "ef" +:+ " f(x)";
               identifier_string := ""; number_val := 0 |} =
  (string_to_keyword (String "d" "ef"),
   {| last_char := (getchar " f(x)").1; stdin := (getchar " f(x)").2;
      identifier_string := String "d" "ef"; number_val := 0 |}) ∧
  (string_to_keyword (String "d" "ef") = TOK_DEF ↔ String "d" "ef" = "def") ∧
  (string_to_keyword (String "d" "ef") = TOK_EXTERN ↔
   String "d" "ef" = "extern") ∧
  (string_to_keyword (String "d" "ef") = TOK_IDENTIFIER ↔
   String "d" "ef" ≠ "def" ∧ String "d" "ef" ≠ "extern").
Proof.
  apply (word_token "d" "ef" " f(x)" "" 0); reflexivity.
Defined.

(** X4: a number.  With a digit in [last_char], followed in the input by
    a run [w] of digits and dots (any number of dots) that ends at the
    end of the input or at another character, [get_token] takes the
    whole run as one number token and hands the text to [strtod];
    [identifier_string] is left as it was. *)
Theorem number_token d w rest ids nv :
  isdigit (to_char (chr d)) = true →
  all_chars in_number w = true →
  in_number (getchar rest).1 = false →
  get_token {| last_char := to_char (chr d); stdin := w +:+ rest;
               identifier_string := ids; number_val := nv |} =
  (TOK_NUMBER,
   {| last_char := (getchar rest).1; stdin := (getchar rest).2;
      identifier_string := ids; number_val := strtod (String d w) |}).
Proof.
  intros Hd Hw Hstop.
  set (lx := {| last_char := to_char (chr d); stdin := w +:+ rest;
                identifier_string := ids; number_val := nv |}).
  pose proof (get_token_rec_enough (S (String.length (stdin lx))) lx
                ltac:(lia)) as Hu.
  simpl in Hu. rewrite skip_space_stop in Hu by by apply isdigit_not_space.
  rewrite (isdigit_not_alpha _ Hd), Hd in Hu.
  assert (in_number (to_char (chr d)) = true) as Hd'
    by (unfold in_number; by rewrite Hd).
  pose proof (read_while_first in_number "" (to_char (chr d)) (w +:+ rest)
                eq_refl Hd') as Hf.
  rewrite read_while_run in Hf by done.
  destruct (getchar (w +:+ rest)) as [c1 inp1]. simpl in Hf.
  unfold push_back in Hf. rewrite append_nil in Hf. rewrite Hf in Hu.
  rewrite append_nil, ascii_of_char_to_char in Hu. by simplify_eq.
Qed.

Lemma number_token_witness :
  get_token {| last_char := to_char (chr "1"); stdin := ".5.25" +:+ "+x";
               identifier_string := "f"; number_val := 0 |} =
  (TOK_NUMBER,
   {| last_char := (getchar "+x").1; stdin := (getchar "+x").2;
      identifier_string := "f"; number_val := strtod (String "1" ".5.25") |}).
Proof.
  apply (number_token "1" ".5.25" "+x" "f" 0); reflexivity.
Defined.

(** X5: a comment.  With '#' in [last_char] and a run [body] of
    characters other than line breaks next in the input: if a line feed
    or a carriage return follows, [get_token] returns what it returns
    started behind that line break; if the input ends with the comment,
    it returns the end of input and leaves [EOF] in [last_char]. *)
Theorem comment_is_skipped body ids nv :
  all_chars in_comment body = true →
  (∀ nl rest,
     nl = "010"%char ∨ nl = "013"%char →
     get_token {| last_char := chr "#"; stdin := body +:+ String nl rest;
                  identifier_string := ids; number_val := nv |} =
     get_token {| last_char := (getchar rest).1; stdin := (getchar rest).2;
                  identifier_string := ids; number_val := nv |}) ∧
  get_token {| last_char := chr "#"; stdin := body;
               identifier_string := ids; number_val := nv |} =
  (TOK_EOF, {| last_char := EOF; stdin := "";
               identifier_string := ids; number_val := nv |}).
Proof.
  intros Hbody. split.
  - intros nl rest Hnl.
    set (lx := {| last_char := chr "#"; stdin := body +:+ String nl rest;
                  identifier_string := ids; number_val := nv |}).
    set (lx' := {| last_char := (getchar rest).1; stdin := (getchar rest).2;
                   identifier_string := ids; number_val := nv |}).
    pose proof (get_token_rec_enough
                  (S (String.length (stdin lx) + String.length (stdin lx')))
                  lx ltac:(lia)) as Hu.
    simpl in Hu. rewrite skip_space_stop in Hu by done.
    change (isalpha (chr "#")) with false in Hu.
    change (isdigit (chr "#")) with false in Hu.
    change (chr "#" =? chr "#") with true in Hu. cbv iota in Hu.
    pose proof (skip_line_run body nl rest Hbody) as Hl.
    destruct (getchar (body +:+ String nl rest)) as [c1 inp1]. simpl in Hl.
    rewrite Hl in Hu by (by destruct Hnl as [-> | ->]).
    assert ((to_char (chr nl) =? EOF) = false) as Hne
      by (by destruct Hnl as [-> | ->]).
    rewrite Hne in Hu. simpl in Hu.
    destruct (getchar rest) as [c3 inp3] eqn:Hg. simpl in *.
    rewrite (get_token_rec_enough _ lx') in Hu by (simpl; lia).
    by simplify_eq.
  - set (lx := {| last_char := chr "#"; stdin := body;
                  identifier_string := ids; number_val := nv |}).
    pose proof (get_token_rec_enough (S (String.length (stdin lx))) lx
                  ltac:(lia)) as Hu.
    simpl in Hu. rewrite skip_space_stop in Hu by done.
    change (isalpha (chr "#")) with false in Hu.
    change (isdigit (chr "#")) with false in Hu.
    change (chr "#" =? chr "#") with true in Hu. cbv iota in Hu.
    pose proof (skip_line_to_end body Hbody) as Hl.
    destruct (getchar body) as [c1 inp1]. simpl in Hl. rewrite Hl in Hu.
    simpl in Hu. by simplify_eq.
Qed.

Lemma comment_is_skipped_witness :
  (∀ nl rest,
     nl = "010"%char ∨ nl = "013"%char →
     get_token {| last_char := chr "#";
                  stdin := " a note, def" +:+ String nl rest;
                  identifier_string := ""; number_val := 0 |} =
     get_token {| last_char := (getchar rest).1; stdin := (getchar rest).2;
                  identifier_string := ""; number_val := 0 |}) ∧
  get_token {| last_char := chr "#"; stdin := " a note, def";
               identifier_string := ""; number_val := 0 |} =
  (TOK_EOF, {| last_char := EOF; stdin := "";
               identifier_string := ""; number_val := 0 |}).
Proof.
  apply (comment_is_skipped " a note, def" "" 0). reflexivity.
Defined.

(** X6: [get_token] consumes its input.  Counting the unread characters
    and the one held in [last_char], a call never leaves more than it
    found, and leaves less whenever it returns anything but the end of
    input. *)
Theorem get_token_consumes lx :
  (lexer_measure (get_token lx).2 ≤ lexer_measure lx)%nat ∧
  ((get_token lx).1 ≠ TOK_EOF →
   (lexer_measure (get_token lx).2 < lexer_measure lx)%nat).
Proof.
  pose proof (get_token_unfold lx) as Hu.
  destruct (get_token lx) as [t lx']. by eapply get_token_rec_measure.
Qed.

(** X7: the code [get_token] returns is never a white-space character, a
    letter, a digit or '#'; [identifier_string] changes only with a word
    token and [number_val] only with a number token. *)
Theorem get_token_code lx :
  (isspace (get_token lx).1 = false ∧ isalnum (get_token lx).1 = false ∧
   (get_token lx).1 ≠ chr "#") ∧
  ((get_token lx).1 ≠ TOK_DEF → (get_token lx).1 ≠ TOK_EXTERN →
   (get_token lx).1 ≠ TOK_IDENTIFIER →
   identifier_string (get_token lx).2 = identifier_string lx) ∧
  ((get_token lx).1 ≠ TOK_NUMBER →
   number_val (get_token lx).2 = number_val lx).
Proof.
  pose proof (get_token_unfold lx) as Hu.
  destruct (get_token lx) as [t lx']. by eapply get_token_rec_code.
Qed.

(** * Further properties of the parser *)

Section ParserInvariants.

Local Arguments get_next_token : simpl never.
Local Arguments cursor_measure : simpl never.
Local Arguments get_binary_precedence : simpl never.
Local Arguments to_char : simpl never.
Local Arguments pretty : simpl never.

(** A hypothesis that a parse function returned, taken apart along the
    branches of its body. *)
Local Ltac parse_destruct :=
  repeat match goal with
  | H : bind ?m _ = Returns _ |- _ =>
      let E := fresh "E" in
      destruct m as [[[?|] ?]| |] eqn:E; simpl in H; try discriminate H
  | H : (if ?c then _ else _) = Returns _ |- _ =>
      let E := fresh "E" in destruct c eqn:E
  | H : match ?x with Some _ => _ | None => _ end = Returns _ |- _ =>
      destruct x
  | H : parse_number _ = Returns _ |- _ => unfold parse_number in H
  | H : Returns (log_error_expr _ _) = Returns _ |- _ =>
      unfold log_error_expr in H
  | H : AssertFailed = Returns _ |- _ => discriminate H
  | H : OutOfFuel = Returns _ |- _ => discriminate H
  | H : Returns _ = Returns _ |- _ => injection H as H; subst
  | H : (_, _) = (_, _) |- _ => injection H as ? ?; subst
  end.

Local Ltac parse_step H :=
  cbn -[get_next_token get_binary_precedence to_char pretty
        log_error_expr log_error parse_number] in H;
  parse_destruct.

Lemma cursor_measure_log msg p :
  cursor_measure (log_error msg p) = cursor_measure p.
Proof. reflexivity. Qed.

Lemma get_next_token_le p :
  (cursor_measure (get_next_token p) ≤ cursor_measure p)%nat.
Proof.
  unfold cursor_measure, get_next_token.
  pose proof (get_token_unfold (lexer p)) as Hu.
  destruct (get_token (lexer p)) as [t lx].
  destruct (get_token_rec_measure _ _ _ _ Hu) as [Hle Hlt]. simpl in *.
  destruct (t =? TOK_EOF) eqn:Ht; [case_match; lia|]. apply Z.eqb_neq in Ht.
  specialize (Hlt Ht). case_match; lia.
Qed.

Lemma get_next_token_measure p :
  curr_token p ≠ TOK_EOF →
  (cursor_measure (get_next_token p) < cursor_measure p)%nat.
Proof.
  intros Hp. unfold cursor_measure, get_next_token.
  pose proof (get_token_unfold (lexer p)) as Hu.
  destruct (get_token (lexer p)) as [t lx].
  destruct (get_token_rec_measure _ _ _ _ Hu) as [Hle Hlt]. simpl in *.
  apply Z.eqb_neq in Hp. rewrite Hp.
  destruct (t =? TOK_EOF) eqn:Ht; [lia|]. apply Z.eqb_neq in Ht.
  specialize (Hlt Ht). lia.
Qed.

Lemma operator_not_eof p prec :
  0 ≤ prec → prec ≤ get_binary_precedence (to_char (curr_token p)) →
  curr_token p ≠ TOK_EOF.
Proof.
  intros Hprec Hle Heq. rewrite Heq in Hle. change (prec ≤ -1) in Hle. lia.
Qed.

Local Ltac norm_conds :=
  repeat match goal with
  | E : negb _ = false |- _ => apply negb_false_iff in E
  | E : negb _ = true |- _ => apply negb_true_iff in E
  | E : (_ <? _) = false |- _ => apply Z.ltb_ge in E
  | E : (_ <? _) = true |- _ => apply Z.ltb_lt in E
  end.

Local Ltac tok_ne :=
  first
    [ match goal with
      | Hp : 0 ≤ ?pr,
        E : ?pr ≤ get_binary_precedence (to_char (curr_token ?q))
        |- curr_token ?q ≠ _ => exact (operator_not_eof q pr Hp E)
      end
    | let Heq := fresh in
      intros Heq;
      match goal with
      | E : (curr_token ?q =? _) = true |- _ =>
          rewrite Heq in E; discriminate E
      | E : curr_token ?q = _ |- _ =>
          rewrite Heq in E; discriminate E
      end ].

(** The facts on every [get_next_token] in sight. *)
Local Ltac gnt_facts :=
  repeat match goal with
  | |- context [get_next_token ?q] =>
      lazymatch goal with
      | _ : (cursor_measure (get_next_token q) < cursor_measure q)%nat |- _ =>
          fail
      | _ => idtac
      end;
      assert (cursor_measure (get_next_token q) < cursor_measure q)%nat
        by (apply get_next_token_measure; tok_ne)
  | H : context [get_next_token ?q] |- _ =>
      lazymatch goal with
      | _ : (cursor_measure (get_next_token q) < cursor_measure q)%nat |- _ =>
          fail
      | _ => idtac
      end;
      assert (cursor_measure (get_next_token q) < cursor_measure q)%nat
        by (apply get_next_token_measure; tok_ne)
  end.

Local Ltac apply_IHs side :=
  repeat match goal with
  | IH : ∀ p r p', ?f ?n p = Returns (r, p') → _,
    H : ?f ?n _ = Returns _ |- _ => apply IH in H
  | IH : ∀ args p r p', ?f ?n args p = Returns (r, p') → _,
    H : ?f ?n _ _ = Returns _ |- _ => apply IH in H
  | IH : ∀ prec lhs p r p', _ → ?f ?n prec lhs p = Returns (r, p') → _,
    H : ?f ?n _ _ _ = Returns _ |- _ => apply IH in H; [|side]
  end.

(** No parse function moves the cursor back, and one that returns a node
    has moved it on. *)
Lemma parse_measure n :
  (∀ p r p', parse_expr n p = Returns (r, p') →
     (cursor_measure p' ≤ cursor_measure p)%nat ∧
     (is_Some r → (cursor_measure p' < cursor_measure p)%nat)) ∧
  (∀ p r p', parse_primary n p = Returns (r, p') →
     (cursor_measure p' ≤ cursor_measure p)%nat ∧
     (is_Some r → (cursor_measure p' < cursor_measure p)%nat)) ∧
  (∀ p r p', parse_paren_expr n p = Returns (r, p') →
     (cursor_measure p' ≤ cursor_measure p)%nat ∧
     (is_Some r → (cursor_measure p' < cursor_measure p)%nat)) ∧
  (∀ p r p', parse_identifier n p = Returns (r, p') →
     (cursor_measure p' ≤ cursor_measure p)%nat ∧
     (is_Some r → (cursor_measure p' < cursor_measure p)%nat)) ∧
  (∀ args p r p', parse_identifier_args n args p = Returns (r, p') →
     (cursor_measure p' ≤ cursor_measure p)%nat ∧
     (is_Some r → (cursor_measure p' < cursor_measure p)%nat ∧
                  curr_token p' = chr ")")) ∧
  (∀ prec lhs p r p',
     0 ≤ prec →
     parse_bin_op_rhs n prec lhs p = Returns (r, p') →
     (cursor_measure p' ≤ cursor_measure p)%nat).
Proof.
  induction n as [|n IH]; [by repeat split|].
  destruct IH as (IHe & IHp & IHpe & IHi & IHa & IHb).
  split_and!; intros; 
    match goal with H : _ = Returns _ |- _ => parse_step H end;
    norm_conds; apply_IHs ltac:(lia); gnt_facts;
    rewrite ?cursor_measure_log;
    repeat match goal with H : _ ∧ _ |- _ => destruct H end;
    repeat match goal with
           | H : is_Some (Some _) → _ |- _ => specialize (H ltac:(eauto))
           end;
    repeat match goal with H : _ ∧ _ |- _ => destruct H end;
    repeat match goal with
           | E : (curr_token _ =? _) = true |- _ => apply Z.eqb_eq in E
           end;
    gnt_facts;
    first [ done | lia
          | split; [lia|]; intros [? ?]; first [done | lia | split; [lia|done]]
          | split; [lia|]; intros Hs;
            match goal with
            | H : is_Some _ → _ |- _ => destruct (H Hs); split; [lia|done]
            end ].
Qed.


Lemma operator_known op prec :
  0 ≤ prec → prec ≤ get_binary_precedence op →
  op = chr "<" ∨ op = chr "+" ∨ op = chr "-" ∨ op = chr "*".
Proof.
  intros Hprec Hle. destruct precedence_table as (_ & _ & _ & _ & Hno).
  destruct (decide (op = chr "<")); [auto|].
  destruct (decide (op = chr "+")); [auto|].
  destruct (decide (op = chr "-")); [auto|].
  destruct (decide (op = chr "*")); [auto|].
  rewrite Hno in Hle by done. lia.
Qed.

(** The operators of a parsed tree are operators of the table: the loop
    of [parse_bin_op_rhs] goes on only at a token whose precedence is
    not below the one it was entered with. *)
Lemma parse_ops_known n :
  (∀ p r p', parse_expr n p = Returns (Some r, p') → ops_known r) ∧
  (∀ p r p', parse_primary n p = Returns (Some r, p') → ops_known r) ∧
  (∀ p r p', parse_paren_expr n p = Returns (Some r, p') → ops_known r) ∧
  (∀ p r p', parse_identifier n p = Returns (Some r, p') → ops_known r) ∧
  (∀ args p r p', Forall ops_known args →
     parse_identifier_args n args p = Returns (Some r, p') →
     Forall ops_known r) ∧
  (∀ prec lhs p r p', 0 ≤ prec → ops_known lhs →
     parse_bin_op_rhs n prec lhs p = Returns (Some r, p') → ops_known r).
Proof.
  induction n as [|n IH]; [by repeat split|].
  destruct IH as (IHe & IHp & IHpe & IHi & IHa & IHb).
  split_and!; intros;
    match goal with H : _ = Returns _ |- _ => parse_step H end;
    norm_conds; try done;
    repeat match goal with
           | E : parse_expr n _ = Returns (Some _, _) |- _ => apply IHe in E
           | E : parse_primary n _ = Returns (Some _, _) |- _ =>
               apply IHp in E
           | E : parse_paren_expr n _ = Returns (Some _, _) |- _ =>
               apply IHpe in E
           | E : parse_identifier n _ = Returns (Some _, _) |- _ =>
               apply IHi in E
           end;
    repeat match goal with
           | E : parse_bin_op_rhs n _ _ _ = Returns (Some _, _) |- _ =>
               apply IHb in E;
               [|lia|solve [eauto using ops_known, operator_known]]
           | E : parse_identifier_args n _ _ = Returns (Some _, _) |- _ =>
               apply IHa in E;
               [|solve [eauto using Forall_app_2, Forall_cons_2,
                          Forall_nil_2]]
           end;
    eauto using ops_known, Forall_app_2, Forall_cons_2, Forall_nil_2.
Qed.

Lemma args_at_comma n args p r p' :
  curr_token p = chr "," →
  parse_identifier_args n args p = Returns (r, p') → r = None.
Proof.
  intros Hc H. destruct n as [|[|[|n]]]; try done;
    revert H;
    cbn -[get_next_token get_binary_precedence to_char pretty log_error];
    try done.
  rewrite Hc. simpl. intros H. by simplify_eq.
Qed.

(** A parsed call has no argument or one: after an argument the loop of
    [parse_identifier] ends at ')' and fails at anything else, a comma
    included. *)
Lemma parse_calls_unary n :
  (∀ p r p', parse_expr n p = Returns (Some r, p') → calls_unary r) ∧
  (∀ p r p', parse_primary n p = Returns (Some r, p') → calls_unary r) ∧
  (∀ p r p', parse_paren_expr n p = Returns (Some r, p') → calls_unary r) ∧
  (∀ p r p', parse_identifier n p = Returns (Some r, p') → calls_unary r) ∧
  (∀ args p r p',
     parse_identifier_args n args p = Returns (Some r, p') →
     ∃ arg, r = args ++ [arg] ∧ calls_unary arg) ∧
  (∀ prec lhs p r p', calls_unary lhs →
     parse_bin_op_rhs n prec lhs p = Returns (Some r, p') → calls_unary r).
Proof.
  induction n as [|n IH]; [by repeat split|].
  destruct IH as (IHe & IHp & IHpe & IHi & IHa & IHb).
  split_and!; intros;
    match goal with H : _ = Returns _ |- _ => parse_step H end;
    norm_conds; try done;
    repeat match goal with
           | E : (curr_token _ =? _) = true |- _ => apply Z.eqb_eq in E
           | E : curr_token ?q = chr ",",
             H : parse_identifier_args _ _ ?q = Returns (Some _, _) |- _ =>
               by apply (args_at_comma _ _ _ _ _ E) in H
           | E : parse_expr n _ = Returns (Some _, _) |- _ => apply IHe in E
           | E : parse_primary n _ = Returns (Some _, _) |- _ =>
               apply IHp in E
           | E : parse_paren_expr n _ = Returns (Some _, _) |- _ =>
               apply IHpe in E
           | E : parse_identifier n _ = Returns (Some _, _) |- _ =>
               apply IHi in E
           | E : parse_identifier_args n _ _ = Returns (Some _, _) |- _ =>
               apply IHa in E; destruct E as (? & -> & ?)
           end;
    repeat match goal with
           | E : parse_bin_op_rhs n _ _ _ = Returns (Some _, _) |- _ =>
               apply IHb in E; [|solve [eauto using calls_unary]]
           end;
    eauto using calls_unary.
  apply calls_unary_call; [simpl; lia|]. by apply Forall_singleton.
Qed.

Lemma stderr_get_next_token p : stderr (get_next_token p) = stderr p.
Proof. unfold get_next_token. by destruct (get_token (lexer p)). Qed.

(** A parse that fails has written one diagnostic, and one that returns
    a node has written none. *)
Lemma parse_diagnostics n :
  (∀ p r p', parse_expr n p = Returns (r, p') →
     match r with
     | Some _ => stderr p' = stderr p
     | None => ∃ msg, stderr p' = stderr p ++ [msg]
     end) ∧
  (∀ p r p', parse_primary n p = Returns (r, p') →
     match r with
     | Some _ => stderr p' = stderr p
     | None => ∃ msg, stderr p' = stderr p ++ [msg]
     end) ∧
  (∀ p r p', parse_paren_expr n p = Returns (r, p') →
     match r with
     | Some _ => stderr p' = stderr p
     | None => ∃ msg, stderr p' = stderr p ++ [msg]
     end) ∧
  (∀ p r p', parse_identifier n p = Returns (r, p') →
     match r with
     | Some _ => stderr p' = stderr p
     | None => ∃ msg, stderr p' = stderr p ++ [msg]
     end) ∧
  (∀ args p r p', parse_identifier_args n args p = Returns (r, p') →
     match r with
     | Some _ => stderr p' = stderr p
     | None => ∃ msg, stderr p' = stderr p ++ [msg]
     end) ∧
  (∀ prec lhs p r p', parse_bin_op_rhs n prec lhs p = Returns (r, p') →
     match r with
     | Some _ => stderr p' = stderr p
     | None => ∃ msg, stderr p' = stderr p ++ [msg]
     end).
Proof.
  induction n as [|n IH]; [by repeat split|].
  destruct IH as (IHe & IHp & IHpe & IHi & IHa & IHb).
  split_and!; intros;
    match goal with H : _ = Returns _ |- _ => parse_step H end;
    repeat match goal with
           | E : parse_expr n _ = Returns _ |- _ => apply IHe in E
           | E : parse_primary n _ = Returns _ |- _ => apply IHp in E
           | E : parse_paren_expr n _ = Returns _ |- _ => apply IHpe in E
           | E : parse_identifier n _ = Returns _ |- _ => apply IHi in E
           | E : parse_identifier_args n _ _ = Returns _ |- _ =>
               apply IHa in E
           | E : parse_bin_op_rhs n _ _ _ = Returns _ |- _ => apply IHb in E
           end;
    simpl in *; rewrite ?stderr_get_next_token in *;
    repeat match goal with
           | E : ∃ _, _ |- _ => destruct E as [? E]
           | |- match ?r with Some _ => _ | None => _ end => destruct r
           end;
    first [ congruence
          | eexists;
            repeat match goal with
                   | E : stderr _ = _ |- _ => rewrite E; clear E
                   end; reflexivity ].
Qed.


Lemma get_next_token_lexer_le p :
  (lexer_measure (lexer (get_next_token p)) ≤ lexer_measure (lexer p))%nat.
Proof.
  unfold get_next_token.
  pose proof (get_token_unfold (lexer p)) as Hu.
  destruct (get_token (lexer p)) as [t lx].
  by destruct (get_token_rec_measure _ _ _ _ Hu) as [Hle _].
Qed.

(** The lexer is never behind where a parse function found it. *)
Lemma parse_lexer_le n :
  (∀ p r p', parse_expr n p = Returns (r, p') →
     (lexer_measure (lexer p') ≤ lexer_measure (lexer p))%nat) ∧
  (∀ p r p', parse_primary n p = Returns (r, p') →
     (lexer_measure (lexer p') ≤ lexer_measure (lexer p))%nat) ∧
  (∀ p r p', parse_paren_expr n p = Returns (r, p') →
     (lexer_measure (lexer p') ≤ lexer_measure (lexer p))%nat) ∧
  (∀ p r p', parse_identifier n p = Returns (r, p') →
     (lexer_measure (lexer p') ≤ lexer_measure (lexer p))%nat) ∧
  (∀ args p r p', parse_identifier_args n args p = Returns (r, p') →
     (lexer_measure (lexer p') ≤ lexer_measure (lexer p))%nat) ∧
  (∀ prec lhs p r p', parse_bin_op_rhs n prec lhs p = Returns (r, p') →
     (lexer_measure (lexer p') ≤ lexer_measure (lexer p))%nat).
Proof.
  induction n as [|n IH]; [by repeat split|].
  destruct IH as (IHe & IHp & IHpe & IHi & IHa & IHb).
  split_and!; intros;
    match goal with H : _ = Returns _ |- _ => parse_step H end;
    repeat match goal with
           | E : parse_expr n _ = Returns _ |- _ => apply IHe in E
           | E : parse_primary n _ = Returns _ |- _ => apply IHp in E
           | E : parse_paren_expr n _ = Returns _ |- _ => apply IHpe in E
           | E : parse_identifier n _ = Returns _ |- _ => apply IHi in E
           | E : parse_identifier_args n _ _ = Returns _ |- _ =>
               apply IHa in E
           | E : parse_bin_op_rhs n _ _ _ = Returns _ |- _ => apply IHb in E
           end;
    repeat match goal with
           | |- context [get_next_token ?q] =>
               lazymatch goal with
               | _ : (lexer_measure (lexer (get_next_token q))
                      ≤ lexer_measure (lexer q))%nat |- _ => fail
               | _ => pose proof (get_next_token_lexer_le q)
               end
           | _ : context [get_next_token ?q] |- _ =>
               lazymatch goal with
               | _ : (lexer_measure (lexer (get_next_token q))
                      ≤ lexer_measure (lexer q))%nat |- _ => fail
               | _ => pose proof (get_next_token_lexer_le q)
               end
           end;
    simpl; lia.
Qed.

End ParserInvariants.

(** * The parser returns *)

Section ParserReturns.

Local Arguments get_next_token : simpl never.
Local Arguments cursor_measure : simpl never.
Local Arguments get_binary_precedence : simpl never.
Local Arguments to_char : simpl never.
Local Arguments pretty : simpl never.

Local Ltac unfold_parse :=
  cbn -[get_next_token get_binary_precedence to_char pretty
        log_error_expr log_error parse_number].

Lemma parse_paren_expr_fuel n m p r :
  parse_paren_expr n p = Returns r → (n ≤ m)%nat →
  parse_paren_expr m p = Returns r.
Proof.
  intros H Hle. eapply approx_returns; [|done].
  by apply (parse_fuel_mono n m Hle).
Qed.

Lemma parse_identifier_args_fuel n m args p r :
  parse_identifier_args n args p = Returns r → (n ≤ m)%nat →
  parse_identifier_args m args p = Returns r.
Proof.
  intros H Hle. eapply approx_returns; [|done].
  by apply (parse_fuel_mono n m Hle).
Qed.

Lemma parse_number_returns p :
  (curr_token p =? TOK_NUMBER) = true → ∃ r, parse_number p = Returns r.
Proof. unfold parse_number. intros ->. eauto. Qed.

(** With the cursor at measure [m] or less, each function of the
    recursive descent returns: the calls between two tokens read are
    nested to a fixed depth, and every loop iteration reads a token. *)
Lemma parse_halts m :
  (∀ p, (cursor_measure p ≤ m)%nat →
     ∃ n r, parse_expr n p = Returns r) ∧
  (∀ p, (cursor_measure p ≤ m)%nat →
     ∃ n r, parse_primary n p = Returns r) ∧
  (∀ args p, (cursor_measure p ≤ m)%nat →
     ∃ n r, parse_identifier_args n args p = Returns r) ∧
  (∀ prec lhs p, 0 ≤ prec → (cursor_measure p ≤ m)%nat →
     ∃ n r, parse_bin_op_rhs n prec lhs p = Returns r).
Proof.
  induction m as [m IH] using lt_wf_ind.
  assert (∀ p, (cursor_measure p ≤ m)%nat → curr_token p = chr "(" →
            ∃ n r, parse_paren_expr n p = Returns r) as HPE.
  { intros p Hm Hc.
    assert (cursor_measure (get_next_token p) < cursor_measure p)%nat
      by (apply get_next_token_measure; by rewrite Hc).
    destruct (IH (cursor_measure (get_next_token p)) ltac:(lia))
      as (IHe & _).
    destruct (IHe (get_next_token p) ltac:(lia)) as (n & [r p1] & Hn).
    exists (S n). unfold_parse. rewrite Hc. simpl. rewrite Hn. simpl.
    destruct r; [case_match|]; eauto. }
  assert (∀ p, (cursor_measure p ≤ m)%nat → curr_token p = TOK_IDENTIFIER →
            ∃ n r, parse_identifier n p = Returns r) as HI.
  { intros p Hm Hc.
    assert (cursor_measure (get_next_token p) < cursor_measure p)%nat
      by (apply get_next_token_measure; by rewrite Hc).
    destruct (curr_token (get_next_token p) =? chr "(") eqn:Hpar.
    2:{ exists 1%nat. unfold_parse. rewrite Hc, Hpar. simpl. eauto. }
    apply Z.eqb_eq in Hpar.
    assert (cursor_measure (get_next_token (get_next_token p))
            < cursor_measure (get_next_token p))%nat
      by (apply get_next_token_measure; by rewrite Hpar).
    set (p2 := get_next_token (get_next_token p)) in *.
    destruct (curr_token p2 =? chr ")") eqn:Hclose.
    { exists 1%nat. unfold_parse. rewrite Hc, Hpar. simpl.
      fold p2. rewrite Hclose. simpl. eauto. }
    destruct (IH (cursor_measure p2) ltac:(lia)) as (_ & _ & IHa & _).
    destruct (IHa [] p2 ltac:(lia)) as (n & [r p3] & Hn).
    exists (S n). unfold_parse. rewrite Hc, Hpar. simpl.
    fold p2. rewrite Hclose. simpl. rewrite Hn. simpl.
    destruct r; eauto. }
  assert (∀ p, (cursor_measure p ≤ m)%nat →
            ∃ n r, parse_primary n p = Returns r) as HP.
  { intros p Hm.
    destruct (curr_token p =? TOK_IDENTIFIER) eqn:Hid.
    { apply Z.eqb_eq in Hid. destruct (HI p Hm Hid) as (n & r & Hn).
      exists (S n), r. unfold_parse. by rewrite Hid. }
    destruct (curr_token p =? TOK_NUMBER) eqn:Hnum.
    { destruct (parse_number_returns p Hnum) as [r Hr].
      exists 1%nat, r. unfold_parse. by rewrite Hid, Hnum. }
    destruct (curr_token p =? chr "(") eqn:Hpar.
    { apply Z.eqb_eq in Hpar. destruct (HPE p Hm Hpar) as (n & r & Hn).
      exists (S n), r. unfold_parse. rewrite Hid, Hnum.
      by rewrite Hpar. }
    exists 1%nat. unfold_parse. rewrite Hid, Hnum, Hpar. eauto. }
  assert (∀ p, (cursor_measure p ≤ m)%nat →
            ∃ n r, parse_expr n p = Returns r) as HE.
  { intros p Hm. destruct (HP p Hm) as (n1 & [[lhs|] p1] & H1).
    - destruct (parse_measure n1) as (_ & Hmp & _).
      destruct (Hmp _ _ _ H1) as [_ Hlt]. specialize (Hlt ltac:(eauto)).
      destruct (IH (cursor_measure p1) ltac:(lia)) as (_ & _ & _ & IHb).
      destruct (IHb 0 lhs p1 ltac:(lia) ltac:(lia)) as (n2 & r & H2).
      exists (S (n1 `max` n2)), r. unfold_parse.
      rewrite (parse_primary_fuel _ _ _ _ H1) by lia. simpl.
      apply (parse_bin_op_rhs_fuel n2); [done|lia].
    - exists (S n1). unfold_parse. rewrite H1. simpl. eauto. }
  split_and!; [done|done|..].
  - intros args p Hm. destruct (HE p Hm) as (n1 & [[arg|] p1] & H1).
    2:{ exists (S n1). unfold_parse. rewrite H1. simpl. eauto. }
    destruct (parse_measure n1) as (Hme & _).
    destruct (Hme _ _ _ H1) as [_ Hlt]. specialize (Hlt ltac:(eauto)).
    destruct (curr_token p1 =? chr ")") eqn:Hclose.
    { exists (S n1). unfold_parse. rewrite H1. simpl. rewrite Hclose.
      eauto. }
    destruct (curr_token p1 =? chr ",") eqn:Hcomma.
    2:{ exists (S n1). unfold_parse. rewrite H1. simpl.
        rewrite Hclose, Hcomma. simpl. eauto. }
    destruct (IH (cursor_measure p1) ltac:(lia)) as (_ & _ & IHa & _).
    destruct (IHa (args ++ [arg]) p1 ltac:(lia)) as (n2 & r & H2).
    exists (S (n1 `max` n2)), r. unfold_parse.
    rewrite (parse_expr_fuel _ _ _ _ H1) by lia. simpl.
    rewrite Hclose, Hcomma. simpl.
    apply (parse_identifier_args_fuel n2); [done|lia].
  - intros prec lhs p Hprec Hm.
    destruct (get_binary_precedence (to_char (curr_token p)) <? prec)
      eqn:Hstop.
    { exists 1%nat. unfold_parse. rewrite Hstop. eauto. }
    apply Z.ltb_ge in Hstop.
    assert (cursor_measure (get_next_token p) < cursor_measure p)%nat
      by (apply get_next_token_measure; by eapply operator_not_eof).
    destruct (IH (cursor_measure (get_next_token p)) ltac:(lia))
      as (_ & IHp & _ & IHb).
    destruct (IHp (get_next_token p) ltac:(lia))
      as (n1 & [[rhs|] p2] & H1).
    2:{ exists (S n1). unfold_parse.
        rewrite (proj2 (Z.ltb_ge _ _) Hstop). rewrite H1. simpl. eauto. }
    destruct (parse_measure n1) as (_ & Hmp & _).
    destruct (Hmp _ _ _ H1) as [_ Hlt]. specialize (Hlt ltac:(eauto)).
    assert (∃ n2 r, (if get_binary_precedence (to_char (curr_token p))
                          <? get_binary_precedence (to_char (curr_token p2))
                     then parse_bin_op_rhs n2
                            (get_binary_precedence (to_char (curr_token p))
                             + 1) rhs p2
                     else Returns (Some rhs, p2)) = Returns r ∧
                    (cursor_measure r.2 ≤ cursor_measure p2)%nat ∧
                    ∀ k, (n2 ≤ k)%nat →
                      (if get_binary_precedence (to_char (curr_token p))
                          <? get_binary_precedence (to_char (curr_token p2))
                     then parse_bin_op_rhs k
                            (get_binary_precedence (to_char (curr_token p))
                             + 1) rhs p2
                     else Returns (Some rhs, p2)) = Returns r)
      as (n2 & [rhs' p3] & H2 & Hle3 & H2k).
    { case_match.
      - destruct (IHb (get_binary_precedence (to_char (curr_token p)) + 1)
                    rhs p2 ltac:(lia) ltac:(lia)) as (n2 & [r p3] & H2).
        exists n2, (r, p3). split; [done|]. split.
        + destruct (parse_measure n2) as (_ & _ & _ & _ & _ & Hmb).
          simpl. eapply Hmb; [|exact H2]. lia.
        + intros k Hk. by apply (parse_bin_op_rhs_fuel n2).
      - exists 0%nat, (Some rhs, p2). simpl. split; [done|]. split; [lia|done]. }
    simpl in Hle3. destruct rhs' as [rhs'|].
    2:{ exists (S (n1 `max` n2)). unfold_parse.
        rewrite (proj2 (Z.ltb_ge _ _) Hstop).
        rewrite (parse_primary_fuel _ _ _ _ H1) by lia. simpl.
        rewrite H2k by lia. simpl. eauto. }
    destruct (IHb prec
                (BinaryExpr (to_char (curr_token p)) lhs rhs') p3
                Hprec ltac:(lia)) as (n3 & r & H3).
    exists (S (n1 `max` (n2 `max` n3))), r. unfold_parse.
    rewrite (proj2 (Z.ltb_ge _ _) Hstop).
    rewrite (parse_primary_fuel _ _ _ _ H1) by lia. simpl.
    rewrite H2k by lia. simpl.
    apply (parse_bin_op_rhs_fuel n3); [done|lia].
Qed.

End ParserReturns.

(** * The driver *)

Section Driver.

Local Arguments get_next_token : simpl never.
Local Arguments cursor_measure : simpl never.
Local Arguments pretty : simpl never.


Lemma parse_prototype_args_mono n :
  ∀ m args p, (n ≤ m)%nat →
    approx (parse_prototype_args n args p) (parse_prototype_args m args p).
Proof.
  induction n as [|n IH]; intros [|m] args p Hle; try lia; simpl;
    destruct (curr_token p =? TOK_IDENTIFIER);
    try (by left); try (by right).
  apply IH. lia.
Qed.

(** The parameter loop of the later revision ends: every round reads a
    token. *)
Lemma parse_prototype_args_halts m :
  ∀ p args, (cursor_measure p ≤ m)%nat →
    ∃ names p', parse_prototype_args m args p = Returns (names, p') ∧
                (cursor_measure p' ≤ cursor_measure p)%nat.
Proof.
  induction m as [|m IH]; intros p args Hm;
    destruct (curr_token p =? TOK_IDENTIFIER) eqn:Hid.
  - apply Z.eqb_eq in Hid.
    assert (cursor_measure (get_next_token p) < cursor_measure p)%nat
      by (apply get_next_token_measure; by rewrite Hid).
    lia.
  - exists args, p. simpl. by rewrite Hid.
  - apply Z.eqb_eq in Hid.
    assert (cursor_measure (get_next_token p) < cursor_measure p)%nat
      by (apply get_next_token_measure; by rewrite Hid).
    destruct (IH (get_next_token p)
                (args ++ [identifier_string (lexer p)]) ltac:(lia))
      as (names & p' & Hrun & Hle).
    exists names, p'. simpl. rewrite Hid, (proj2 (Z.eqb_eq _ _) eq_refl).
    split; [done|lia].
  - exists args, p. simpl. by rewrite Hid.
Qed.

Lemma parse_prototype_mono n m p :
  (n ≤ m)%nat → approx (parse_prototype n p) (parse_prototype m p).
Proof.
  intros Hle. unfold parse_prototype, parse_prototype_with.
  repeat case_match; try apply approx_refl.
  apply approx_bind; [by apply parse_prototype_args_mono|].
  intros [args p3]. apply approx_refl.
Qed.

Lemma parse_prototype_halts p :
  curr_token p = TOK_IDENTIFIER →
  ∃ n r p', parse_prototype n p = Returns (r, p') ∧
            (cursor_measure p' < cursor_measure p)%nat.
Proof.
  intros Hid.
  assert (cursor_measure (get_next_token p) < cursor_measure p)%nat
    by (apply get_next_token_measure; by rewrite Hid).
  pose proof (get_next_token_le (get_next_token p)).
  destruct (parse_prototype_args_halts
              (cursor_measure (get_next_token (get_next_token p)))
              (get_next_token (get_next_token p)) [] ltac:(lia))
    as (names & p3 & Hrun & Hle).
  pose proof (get_next_token_le p3).
  exists (cursor_measure (get_next_token (get_next_token p))).
  unfold parse_prototype, parse_prototype_with. rewrite Hid. simpl.
  destruct (curr_token (get_next_token p) =? chr "("); simpl.
  - unfold parse_prototype_args in Hrun |- *. rewrite Hrun. simpl.
    destruct (curr_token p3 =? chr ")"); simpl;
      eexists _, _; (split; [reflexivity|]);
      rewrite ?cursor_measure_log; lia.
  - eexists _, _. split; [reflexivity|]. rewrite cursor_measure_log. lia.
Qed.





Lemma approx_halts {A} (r1 r2 : Outcome A) :
  approx r1 r2 → r1 ≠ OutOfFuel → r2 = r1.
Proof. by intros [->| ->]. Qed.







Lemma parse_prototype_args_stderr n :
  ∀ args p r p', parse_prototype_args n args p = Returns (r, p') →
    stderr p' = stderr p.
Proof.
  induction n as [|n IH]; intros args p r p'; simpl;
    destruct (curr_token p =? TOK_IDENTIFIER); try done;
    try (by intros [= _ <-]).
  intros H. apply IH in H. by rewrite stderr_get_next_token in H.
Qed.

Lemma parse_prototype_diagnostics n p r p' :
  parse_prototype n p = Returns (r, p') →
  match r with
  | Some _ => stderr p' = stderr p
  | None => ∃ msg, stderr p' = stderr p ++ [msg]
  end.
Proof.
  unfold parse_prototype, parse_prototype_with.
  destruct (negb (curr_token p =? TOK_IDENTIFIER)); [done|].
  destruct (negb (curr_token (get_next_token p) =? chr "(")).
  { intros [= <- <-]. simpl. rewrite stderr_get_next_token. eauto. }
  destruct (parse_prototype_args n [] (get_next_token (get_next_token p)))
    as [[args p3]| |] eqn:Hrun; simpl; [|done..].
  apply parse_prototype_args_stderr in Hrun.
  rewrite !stderr_get_next_token in Hrun.
  destruct (negb (curr_token p3 =? chr ")")); intros [= <- <-]; simpl.
  - rewrite Hrun. eauto.
  - by rewrite stderr_get_next_token.
Qed.

Lemma handle_definition_line n p p1 :
  handle_definition n p = Returns p1 → ∃ line, stderr p1 = stderr p ++ [line].
Proof.
  unfold handle_definition, parse_definition.
  destruct (negb (curr_token p =? TOK_DEF)); [done|].
  destruct (parse_prototype n (get_next_token p))
    as [[[proto|] q]| |] eqn:Hproto; simpl; try done;
    apply parse_prototype_diagnostics in Hproto;
    rewrite stderr_get_next_token in Hproto.
  2:{ intros [= <-]. by rewrite stderr_get_next_token. }
  destruct (parse_expr n q) as [[[e|] q2]| |] eqn:Hbody; simpl; try done;
    apply (parse_diagnostics n) in Hbody; intros [= <-]; simpl.
  - rewrite Hbody, Hproto. eauto.
  - rewrite stderr_get_next_token. destruct Hbody as [msg ->].
    rewrite Hproto. eauto.
Qed.

Lemma handle_extern_line n p p1 :
  handle_extern n p = Returns p1 → ∃ line, stderr p1 = stderr p ++ [line].
Proof.
  unfold handle_extern, parse_extern.
  destruct (negb (curr_token p =? TOK_EXTERN)); [done|].
  destruct (parse_prototype n (get_next_token p))
    as [[[proto|] q]| |] eqn:Hproto; simpl; try done;
    apply parse_prototype_diagnostics in Hproto;
    rewrite stderr_get_next_token in Hproto; intros [= <-]; simpl.
  - rewrite Hproto. eauto.
  - by rewrite stderr_get_next_token.
Qed.

Lemma handle_top_level_expr_line n p p1 :
  handle_top_level_expr n p = Returns p1 →
  ∃ line, stderr p1 = stderr p ++ [line].
Proof.
  unfold handle_top_level_expr, parse_top_level_expr.
  destruct (parse_expr n p) as [[[e|] q2]| |] eqn:Hbody; simpl; try done;
    apply (parse_diagnostics n) in Hbody; intros [= <-]; simpl.
  - rewrite Hbody. eauto.
  - by rewrite stderr_get_next_token.
Qed.

End Driver.

(** * Diagnostics of the lowering *)

Section LoweringDiagnostics.

Local Ltac other_line :=
  let op' := fresh "op" in
  let Hin := fresh "Hin" in
  intros _ op' Hin; apply list_elem_of_singleton in Hin;
  cbv [String.append] in Hin; discriminate Hin.

(** What lowering an expression writes: something exactly when it
    fails, and the line on an invalid operator only for an operator
    that is not of the table. *)
Lemma codegen_lines e :
  ∀ st, ∃ lines,
    cg_stderr (codegen e st).2 = cg_stderr st ++ lines ∧
    ((codegen e st).1 = None ↔ lines ≠ []) ∧
    (ops_known e →
     ∀ op, "Error: " +:+ "Invalid binary operator '"
             +:+ String (ascii_of_char op) "'" ∉ lines).
Proof.
  induction e as [value|name|op l IHl r IHr|callee args]; intros st.
  - exists []. simpl. rewrite app_nil_r. split_and!; [done|done|].
    intros _ op'. apply not_elem_of_nil.
  - simpl. unfold named_values_at.
    destruct (named_values st !! name) as [[v|]|]; simpl.
    + exists []. rewrite app_nil_r. split_and!; [done|done|].
      intros _ op'. apply not_elem_of_nil.
    + eexists [_]. split_and!; [done|done|].
      other_line.
    + eexists [_]. split_and!; [done|done|].
      other_line.
  - simpl. destruct (IHl st) as (l1 & H1 & Hn1 & Hk1).
    destruct (codegen l st) as [L st1]. simpl in *.
    destruct (IHr st1) as (l2 & H2 & Hn2 & Hk2).
    destruct (codegen r st1) as [R st2]. simpl in *.
    assert (cg_stderr st2 = cg_stderr st ++ (l1 ++ l2)) as H12
      by (by rewrite H2, H1, app_assoc).
    assert (∀ op', ops_known (BinaryExpr op l r) →
              "Error: " +:+ "Invalid binary operator '"
                +:+ String (ascii_of_char op') "'" ∉ l1 ++ l2) as Hk12.
    { intros op' Hk. inversion Hk; subst.
      rewrite elem_of_app. intros [?|?]; [by eapply Hk1|by eapply Hk2]. }
    destruct L as [L|], R as [R|]; simpl.
    + assert (l1 = []) as ->
        by (destruct l1; [done|]; discriminate (proj2 Hn1 ltac:(done))).
      assert (l2 = []) as ->
        by (destruct l2; [done|]; discriminate (proj2 Hn2 ltac:(done))).
      simpl in *. rewrite app_nil_r in H12.
      destruct (op =? chr "+") eqn:E1;
        [|destruct (op =? chr "*") eqn:E2;
           [|destruct (op =? chr "-") eqn:E3;
              [|destruct (op =? chr "<") eqn:E4]]];
        simpl.
      1-4: exists []; rewrite app_nil_r; split_and!; [done|done|];
           intros _ op'; apply not_elem_of_nil.
      eexists [_]. rewrite H12. split_and!; [done|done|].
      intros Hk. inversion Hk as [| |? ? ? Hop|]; subst.
      by destruct Hop as [->|[->|[->| ->]]].
    + exists (l1 ++ l2). split_and!; [done| |by auto].
      split; [|done]. intros _ Hnil. apply app_eq_nil in Hnil as [_ ->].
      by apply Hn2.
    + exists (l1 ++ l2). split_and!; [done| |by auto].
      split; [|done]. intros _ Hnil. apply app_eq_nil in Hnil as [-> _].
      by apply Hn1.
    + exists (l1 ++ l2). split_and!; [done| |by auto].
      split; [|done]. intros _ Hnil. apply app_eq_nil in Hnil as [-> _].
      by apply Hn1.
  - simpl. destruct (getFunction callee st) as [h|]; simpl.
    + destruct (negb (arg_size h st =? length args)%nat); simpl.
      * eexists [_]. split_and!; [done|done|].
        other_line.
      * exists []. rewrite app_nil_r. split_and!; [done|done|].
        intros _ op'. apply not_elem_of_nil.
    + eexists [_]. split_and!; [done|done|].
      other_line.
Qed.

End LoweringDiagnostics.

(** X8: the expression parser only moves forward.  When [parse_expr]
    returns, the lexer is not behind where the call found it, the cursor
    has not moved back, and a call that returns a node has read at least
    one token. *)
Theorem parse_expr_moves_on n p r p' :
  parse_expr n p = Returns (r, p') →
  (lexer_measure (lexer p') ≤ lexer_measure (lexer p))%nat ∧
  (cursor_measure p' ≤ cursor_measure p)%nat ∧
  (is_Some r → (cursor_measure p' < cursor_measure p)%nat).
Proof.
  intros H. destruct (parse_measure n) as (Hm & _).
  destruct (parse_lexer_le n) as (Hl & _).
  destruct (Hm _ _ _ H). split; [by eapply Hl|done].
Qed.

Lemma parse_expr_moves_on_witness :
  (lexer_measure (lexer (parser_at (chr ";") (chr " ") "z" "y" 2))
   ≤ lexer_measure (lexer (parser_on "x+f(2)*y; z")))%nat ∧
  (cursor_measure (parser_at (chr ";") (chr " ") "z" "y" 2)
   ≤ cursor_measure (parser_on "x+f(2)*y; z"))%nat ∧
  (is_Some (Some (BinaryExpr (chr "+") (VarExpr "x")
                    (BinaryExpr (chr "*") (CallExpr "f" [NumLiteralExpr 2])
                       (VarExpr "y")))) →
   (cursor_measure (parser_at (chr ";") (chr " ") "z" "y" 2)
    < cursor_measure (parser_on "x+f(2)*y; z"))%nat).
Proof.
  apply (parse_expr_moves_on 8 (parser_on "x+f(2)*y; z")).
  vm_compute. reflexivity.
Defined.

(** X9: [parse_expr] returns from every state of the parser, whatever
    the input: no assertion of the expression parser can fail, and the
    recursion ends, since the calls between two tokens read are nested to
    a fixed depth and every loop round reads a token. *)
Theorem parse_expr_returns p :
  ∃ N r, ∀ n, (N ≤ n)%nat → parse_expr n p = Returns r.
Proof.
  destruct (parse_halts (cursor_measure p)) as (He & _).
  destruct (He p ltac:(lia)) as (N & r & H).
  exists N, r. intros n Hn. by apply (parse_expr_fuel N).
Qed.

(** X10: every binary operator of a parsed expression is one of '<',
    '+', '-' and '*', the operators of the precedence table. *)
Theorem parsed_operators_are_in_the_table n p e p' :
  parse_expr n p = Returns (Some e, p') → ops_known e.
Proof. apply parse_ops_known. Qed.

Lemma parsed_operators_are_in_the_table_witness :
  ops_known (BinaryExpr (chr "+") (VarExpr "x")
               (BinaryExpr (chr "*") (CallExpr "f" [NumLiteralExpr 2])
                  (VarExpr "y"))).
Proof.
  apply (parsed_operators_are_in_the_table 8 (parser_on "x+f(2)*y; z") _
           (parser_at (chr ";") (chr " ") "z" "y" 2)).
  vm_compute. reflexivity.
Defined.

(** X11: no call of a parsed expression has two arguments or more. *)
Theorem parsed_calls_have_at_most_one_argument n p e p' :
  parse_expr n p = Returns (Some e, p') → calls_unary e.
Proof. apply parse_calls_unary. Qed.

Lemma parsed_calls_have_at_most_one_argument_witness :
  calls_unary (BinaryExpr (chr "+") (VarExpr "x")
                 (BinaryExpr (chr "*") (CallExpr "f" [NumLiteralExpr 2])
                    (VarExpr "y"))).
Proof.
  apply (parsed_calls_have_at_most_one_argument 8
           (parser_on "x+f(2)*y; z") _
           (parser_at (chr ";") (chr " ") "z" "y" 2)).
  vm_compute. reflexivity.
Defined.

(** X12: [parse_expr] writes a diagnostic exactly when it fails: a call
    that returns a node has written nothing, and a call that returns
    null has written one line. *)
Theorem one_diagnostic_per_failed_parse n p r p' :
  parse_expr n p = Returns (r, p') →
  match r with
  | Some _ => stderr p' = stderr p
  | None => ∃ msg, stderr p' = stderr p ++ [msg]
  end.
Proof. apply parse_diagnostics. Qed.

Lemma one_diagnostic_per_failed_parse_witness :
  ∃ msg,
    stderr {| lexer := {| last_char := EOF; stdin := "";
                          identifier_string := "x"; number_val := 2 |};
              curr_token := TOK_IDENTIFIER;
              stderr := ["Error: Expected ')'"] |} =
    stderr (parser_on "(1+2 x") ++ [msg].
Proof.
  apply (one_diagnostic_per_failed_parse 8 (parser_on "(1+2 x") None).
  vm_compute. reflexivity.
Defined.

(** X13: in the later revision [parse_prototype], entered at an
    identifier, returns: its parameter loop reads a token in every round.
    The cursor has then moved on, and a diagnostic is written exactly
    when the result is null. *)
Theorem later_prototype_returns p :
  curr_token p = TOK_IDENTIFIER →
  ∃ N r p',
    (∀ n, (N ≤ n)%nat → parse_prototype n p = Returns (r, p')) ∧
    (cursor_measure p' < cursor_measure p)%nat ∧
    match r with
    | Some _ => stderr p' = stderr p
    | None => ∃ msg, stderr p' = stderr p ++ [msg]
    end.
Proof.
  intros Hid. destruct (parse_prototype_halts p Hid) as (N & r & p' & H & Hlt).
  exists N, r, p'. split_and!; [|done|by eapply parse_prototype_diagnostics].
  intros n Hn. rewrite <-H. apply approx_halts; [|by rewrite H].
  by apply parse_prototype_mono.
Qed.

Lemma later_prototype_returns_witness :
  ∃ N r p',
    (∀ n, (N ≤ n)%nat →
       parse_prototype n (parser_on "foo(a b c") = Returns (r, p')) ∧
    (cursor_measure p' < cursor_measure (parser_on "foo(a b c"))%nat ∧
    match r with
    | Some _ => stderr p' = stderr (parser_on "foo(a b c")
    | None => ∃ msg, stderr p' = stderr (parser_on "foo(a b c") ++ [msg]
    end.
Proof.
  apply (later_prototype_returns (parser_on "foo(a b c")).
  vm_compute. reflexivity.
Defined.


(** X15: [def] or [extern] followed by a token that is no identifier
    reaches [parse_prototype] with its assertion false: the driver stops
    there. *)
Theorem keyword_without_name_fails_assertion p n :
  curr_token p = TOK_DEF ∨ curr_token p = TOK_EXTERN →
  curr_token (get_next_token p) ≠ TOK_IDENTIFIER →
  main_loop (S n) p = AssertFailed.
Proof.
  intros Hkw Hid. apply Z.eqb_neq in Hid.
  destruct Hkw as [Hkw|Hkw]; simpl; rewrite Hkw; simpl;
    unfold handle_definition, parse_definition, handle_extern, parse_extern,
      parse_prototype, parse_prototype_with;
    rewrite Hkw; simpl; by rewrite Hid.
Qed.

Lemma keyword_without_name_fails_assertion_witness :
  main_loop 1 (parser_on "def (x) x") = AssertFailed.
Proof.
  apply (keyword_without_name_fails_assertion (parser_on "def (x) x") 0).
  - left. reflexivity.
  - vm_compute. discriminate.
Defined.

(** X16: every unit the driver handles writes one line to standard
    error, the diagnostic of the parse that failed or the line that
    reports what was found. *)
Theorem every_unit_writes_one_line n p p1 :
  handle_definition n p = Returns p1 ∨ handle_extern n p = Returns p1 ∨
  handle_top_level_expr n p = Returns p1 →
  ∃ line, stderr p1 = stderr p ++ [line].
Proof.
  intros [H|[H|H]].
  - by eapply handle_definition_line.
  - by eapply handle_extern_line.
  - by eapply handle_top_level_expr_line.
Qed.

Lemma every_unit_writes_one_line_witness :
  ∃ line,
    stderr {| lexer := {| last_char := EOF; stdin := "";
                          identifier_string := "a"; number_val := 69 |};
              curr_token := TOK_EOF;
              stderr := ["Error: Unexpected token with id -1"] |} =
    stderr (parser_on "def foo(a b) a*") ++ [line].
Proof.
  apply (every_unit_writes_one_line 6 (parser_on "def foo(a b) a*")).
  left. vm_compute. reflexivity.
Defined.

(** X17: lowering an expression writes a diagnostic exactly when it
    fails: the lines it adds to standard error are none when it returns
    a value, and at least one when it returns null. *)
Theorem lowering_writes_iff_it_fails e st :
  ∃ lines,
    cg_stderr (codegen e st).2 = cg_stderr st ++ lines ∧
    ((codegen e st).1 = None ↔ lines ≠ []).
Proof.
  destruct (codegen_lines e st) as (lines & H1 & H2 & _). by exists lines.
Qed.

(** X18: the parser and the lowering agree on the operators.  Lowering
    an expression that [parse_expr] returned never writes the
    diagnostic of an invalid binary operator: the four operators of the
    precedence table are the four that [BinaryExpr::codegen] knows. *)
Theorem parsed_operators_are_lowered n p e p' st :
  parse_expr n p = Returns (Some e, p') →
  ∃ lines,
    cg_stderr (codegen e st).2 = cg_stderr st ++ lines ∧
    ∀ op, "Error: " +:+ "Invalid binary operator '"
            +:+ String (ascii_of_char op) "'" ∉ lines.
Proof.
  intros H. destruct (codegen_lines e st) as (lines & H1 & _ & H3).
  exists lines. split; [done|]. apply H3.
  by apply (parse_ops_known n) in H.
Qed.

Lemma parsed_operators_are_lowered_witness :
  ∃ lines,
    cg_stderr
      (codegen (BinaryExpr (chr "+") (VarExpr "x")
                  (BinaryExpr (chr "*") (CallExpr "f" [NumLiteralExpr 2])
                     (VarExpr "y"))) ir_extern_f).2
    = cg_stderr ir_extern_f ++ lines ∧
    ∀ op, "Error: " +:+ "Invalid binary operator '"
            +:+ String (ascii_of_char op) "'" ∉ lines.
Proof.
  apply (parsed_operators_are_lowered 8 (parser_on "x+f(2)*y; z") _
           (parser_at (chr ";") (chr " ") "z" "y" 2) ir_extern_f).
  vm_compute. reflexivity.
Defined.
